(** * IParallelSolver: the worker pool of [QhX/iparallelization_solver.py]

    The module under study fans a list of set IDs out over a fixed pool of
    worker processes.  Every worker runs [process_wrapper]: it tests the
    shared task queue for emptiness, takes one set ID with a blocking [get],
    and runs the per-task pipeline (logging hooks, compute, aggregate,
    optional push to the shared result queue, local persistence) inside a
    [try / except / finally] region.  [process_ids] seeds the queue, starts
    the workers, joins them and finally calls [maybe_save_results].

    The embedding is shallow.  Sequential code that can raise lives in a
    small state-and-exception monad; the pool of processes is a transition
    system whose atomic steps are the accesses to the two shared queues, and
    a schedule (the list of the workers that move) drives it.

    Conventions.  The methods a subclass overrides are parameters: each acts
    on the attributes of its own process, may print, and returns or raises.
    Exceptions are those that [except Exception] catches.  A queue is the
    list of its pending items and its operations are atomic; [print] and
    [Queue.put] on the unbounded queues return.  The trace records what the
    workers print and do, then what [maybe_save_results] prints and the
    closing message of [process_ids]; the progress messages that the parent
    prints before its joins return are left out.

    Two views of the task queue are used.  In a [pool] the list [set_ids_]
    holds the items that [empty()] and [get()] can see, and [spawn] makes
    every set ID visible before the first worker moves.  A [fed] pool adds
    the buffer in which [put] leaves an item until the feeder thread of the
    parent has written it to the pipe, so that a worker can find the queue
    empty while set IDs are still on their way. *)

From stdpp Require Import base option list strings gmap.


(** Messages are built with [+:+]; proofs never need to look inside them. *)
Arguments String.append : simpl never.

(** ** Data model *)

(** Set IDs, result rows and file paths are Python [str]; a caught
    [Exception] is kept as its message [str(e)], which is all the handlers
    ever use. *)
Abbreviation SetID := string (only parsing).
Abbreviation Row := string (only parsing).
Abbreviation exn := string (only parsing).

(** Result of running a statement or a call: it returns or it raises. *)
Inductive outcome (A : Type) : Type :=
| Returns (a : A)
| Raises (e : exn).
Arguments Returns {A} a.
Arguments Raises {A} e.

Definition raised {A} (o : outcome A) : option exn :=
  match o with
  | Returns _ => None
  | Raises e => Some e
  end.

(** The overridable methods a worker calls while it handles one set ID. *)
Inductive hook_call : Type :=
| BeginLogging
| Compute
| Aggregate
| StopLogging
| LocalPersist (row : Row).

(** What an observer of a run can see: a line on standard output, a set ID
    leaving the task queue, a row entering the result queue, the return (or
    the exception) of a hook called on behalf of a set ID. *)
Inductive event : Type :=
| Print (line : string)
| Dequeue (set_id : SetID)
| Push (row : Row)
| Hook (set_id : SetID) (c : hook_call) (exc : option exn).

Global Instance hook_call_eq_dec : EqDecision hook_call.
Proof. solve_decision. Defined.
Global Instance event_eq_dec : EqDecision event.
Proof. solve_decision. Defined.

(** [DEFAULT_NUM_WORKERS = 4] *)
Definition DEFAULT_NUM_WORKERS : Z := 4.

(** The attributes of an [IParallelSolver] object.  The two
    [multiprocessing.Queue]s are kept as the list of their pending items,
    oldest first. *)
Record IParallelSolver : Type := {
  num_workers : Z;
  results_ : list Row;
  set_ids_ : list SetID;
  save_all_results_ : bool
}.

(** [IParallelSolver.__init__(self, num_workers=DEFAULT_NUM_WORKERS)] *)
Definition __init__ (num_workers : option Z) : IParallelSolver :=
  {| num_workers := default DEFAULT_NUM_WORKERS num_workers;
     results_ := [];
     set_ids_ := [];
     save_all_results_ := false |}.

Definition with_save_all_results_ (b : bool) (s : IParallelSolver) : IParallelSolver :=
  {| num_workers := num_workers s; results_ := results_ s;
     set_ids_ := set_ids_ s; save_all_results_ := b |}.

Definition with_set_ids_ (q : list SetID) (s : IParallelSolver) : IParallelSolver :=
  {| num_workers := num_workers s; results_ := results_ s;
     set_ids_ := q; save_all_results_ := save_all_results_ s |}.

Definition with_results_ (q : list Row) (s : IParallelSolver) : IParallelSolver :=
  {| num_workers := num_workers s; results_ := q;
     set_ids_ := set_ids_ s; save_all_results_ := save_all_results_ s |}.

(** ** The shared queues *)

(** [Queue.put(item)] on an unbounded queue: append, never blocks. *)
Definition queue_put {A} (x : A) (q : list A) : list A := q ++ [x].

(** [Queue.empty()] on the items that have reached the pipe: an item that
    was put and is not yet written there is not seen. *)
Definition queue_empty {A} (q : list A) : bool :=
  match q with
  | [] => true
  | _ :: _ => false
  end.

(** What a call [Queue.get()] with the default arguments ([block=True],
    no timeout) can do: hand out the oldest item, wait for one, or raise. *)
Inductive get_result : Type :=
| Got (set_id : SetID) (rest : list SetID)
| Blocks
| GetRaises (e : exn).

(** The queue as [multiprocessing.Queue] documents it: first in, first out,
    and a [get()] on an empty queue waits until an item arrives. *)
Definition fifo_get (q : list SetID) : get_result :=
  match q with
  | [] => Blocks
  | set_id :: rest => Got set_id rest
  end.

(** ** Sequential code: state and exceptions *)

Section Solver.

(** [H] is whatever a subclass keeps in its own attributes (log handles,
    output directories, ...); every process has its own copy.  [R] is the
    type of the values of the processing function. *)
Context {H R : Type}.

(** A hook call: the attributes afterwards, the lines it printed, and how
    it ended. *)
Record hook_result (A : Type) : Type := {
  after : H;
  printed : list string;
  result : outcome A
}.
Arguments after {A} _.
Arguments printed {A} _.
Arguments result {A} _.

(** [maybe_save_results] runs in the parent, on the solver itself and on the
    files: a file is the list of its lines. *)
Record save_result : Type := {
  saved_self : IParallelSolver;
  saved_attrs : H;
  saved_files : gmap string (list string);
  saved_printed : list string;
  saved_outcome : outcome unit
}.

(** The methods a subclass overrides. *)
Record Hooks : Type := {
  maybe_begin_logging : SetID → H → hook_result unit;
  get_process_function_result : SetID → H → hook_result R;
  aggregate_process_function_result : R → H → hook_result Row;
  maybe_stop_logging : H → hook_result unit;
  maybe_save_local_results : SetID → Row → H → hook_result unit;
  maybe_save_results :
    option string → IParallelSolver → H → gmap string (list string) → save_result
}.

(** What one process works on while it handles a set ID: its own attributes,
    the local variable [res_string], the shared result queue and the trace. *)
Record proc : Type := {
  attrs : H;
  res_string : Row;
  results_q : list Row;
  trace : list event
}.

Definition M (A : Type) : Type := proc → proc * outcome A.

#[export] Instance M_ret : MRet M := λ A a p, (p, Returns a).

(** Sequencing: an exception skips the rest. *)
#[export] Instance M_bind : MBind M := λ A B k m p,
  match m p with
  | (p', Returns a) => k a p'
  | (p', Raises e) => (p', Raises e)
  end.

(** [try: body except Exception as e: handler(e)] *)
Definition try_except (body : M unit) (handler : exn → M unit) : M unit :=
  λ p, match body p with
       | (p', Returns a) => (p', Returns a)
       | (p', Raises e) => handler e p'
       end.

(** [try: body finally: cleanup]: the cleanup always runs; when it returns,
    the body's outcome stands (its exception goes on), and when it raises,
    its exception replaces the outcome of the body. *)
Definition try_finally (body : M unit) (cleanup : M unit) : M unit :=
  λ p, match body p with
       | (p', o) =>
           match cleanup p' with
           | (p'', Returns _) => (p'', o)
           | (p'', Raises e) => (p'', Raises e)
           end
       end.

Definition emit (evs : list event) : M unit :=
  λ p, ({| attrs := attrs p; res_string := res_string p;
           results_q := results_q p; trace := trace p ++ evs |}, Returns tt).

(** [print(line)] *)
Definition print (line : string) : M unit := emit [Print line].

(** [res_string = row] *)
Definition assign_res_string (row : Row) : M unit :=
  λ p, ({| attrs := attrs p; res_string := row;
           results_q := results_q p; trace := trace p |}, Returns tt).

Definition read_res_string : M Row := λ p, (p, Returns (res_string p)).

(** [self.results_.put(row)] *)
Definition results_put (row : Row) : M unit :=
  λ p, ({| attrs := attrs p; res_string := res_string p;
           results_q := queue_put row (results_q p);
           trace := trace p ++ [Push row] |}, Returns tt).

(** A call of a hook on behalf of [set_id]: the lines the hook prints, then
    the record of how the call ended. *)
Definition call {A} (set_id : SetID) (c : hook_call) (hook : H → hook_result A) : M A :=
  λ p, let r := hook (attrs p) in
       ({| attrs := after r; res_string := res_string p;
           results_q := results_q p;
           trace := trace p ++ (Print <$> printed r) ++ [Hook set_id c (raised (result r))] |},
        result r).

Variable hooks : Hooks.

(** A worker entering the loop body: nothing traced yet, [res_string] not yet
    assigned (the body starts by assigning it). *)
Definition fresh (h : H) (results : list Row) : proc :=
  {| attrs := h; res_string := ""; results_q := results; trace := [] |}.

(** Lines 69-86 of [process_wrapper]: the body of the loop once [set_id] has
    been taken from the queue.  [save_all] is [self.save_all_results_]. *)
Definition process_task (save_all : bool) (set_id : SetID) : M unit :=
  assign_res_string "" ;;
  try_finally
    (try_except
       (call set_id BeginLogging (maybe_begin_logging hooks set_id) ;;
        result ← call set_id Compute (get_process_function_result hooks set_id) ;
        row ← call set_id Aggregate (aggregate_process_function_result hooks result) ;
        assign_res_string row ;;
        if save_all then
          results_put row ;;
          print ("Result for set ID " +:+ set_id +:+ " added to results queue.")
        else mret tt)
       (λ e, print ("Error processing/saving data for set ID " +:+ set_id +:+ ": " +:+ e)))
    (try_except
       (call set_id StopLogging (maybe_stop_logging hooks) ;;
        row ← read_res_string ;
        call set_id (LocalPersist row) (maybe_save_local_results hooks set_id row) ;;
        print ("Local results saved for set ID " +:+ set_id +:+ "."))
       (λ e, print ("Error stopping logs or saving local results for set ID "
                      +:+ set_id +:+ ": " +:+ e))).

(** ** The pool of worker processes *)

(** Where a worker is in [process_wrapper]: before its first statement, at
    the test of the [while], at [self.set_ids_.get()] after the test found
    the queue non-empty, in the loop body with a set ID in hand, returned
    from [process_wrapper], or killed by an exception that left it. *)
Inductive pc : Type :=
| Start
| LoopTest
| Get
| Task (set_id : SetID)
| Exited
| Died (e : exn).

Record worker : Type := {
  at_ : pc;
  own : H
}.

(** A run of [process_ids] between the start of the workers and the join:
    the solver object (its queues are the ones all processes share; its
    scalar attributes are nowhere assigned during the run, so the copy of each
    worker equals the parent's), the workers and what has been observed. *)
Record pool : Type := {
  shared : IParallelSolver;
  workers : list worker;
  log : list event
}.

Definition move (i : nat) (w : worker) (s : IParallelSolver) (evs : list event)
    (p : pool) : pool :=
  {| shared := s; workers := <[i := w]> (workers p); log := log p ++ evs |}.

(** How the task queue answers [get()]. *)
Variable queue_get : list SetID → get_result.

(** [process_wrapper(self)] as run by worker [i], one atomic step at a time:
    the statement at which the worker stands is executed on the shared
    queues.  The loop body touches shared state only in its one
    [results_.put], so it is one step: the trace keeps the events of one run
    of the loop body together and does not tell how the loop bodies of two
    workers overlap in time.  [None] when the worker cannot move: it has
    ended, or its [get()] waits. *)
Definition process_wrapper (i : nat) (p : pool) : option pool :=
  w ← workers p !! i;
  match at_ w with
  | Start =>
      Some (move i {| at_ := LoopTest; own := own w |} (shared p)
              [Print "Starting process_wrapper..."] p)
  | LoopTest =>
      if queue_empty (set_ids_ (shared p))
      then Some (move i {| at_ := Exited; own := own w |} (shared p) [] p)
      else Some (move i {| at_ := Get; own := own w |} (shared p) [] p)
  | Get =>
      match queue_get (set_ids_ (shared p)) with
      | Got set_id rest =>
          Some (move i {| at_ := Task set_id; own := own w |}
                  (with_set_ids_ rest (shared p))
                  [Dequeue set_id; Print ("Processing set ID: " +:+ set_id)] p)
      | Blocks => None
      | GetRaises e =>
          Some (move i {| at_ := Exited; own := own w |} (shared p)
                  [Print ("Error retrieving set ID from queue: " +:+ e)] p)
      end
  | Task set_id =>
      let '(q, o) :=
        process_task (save_all_results_ (shared p)) set_id
          (fresh (own w) (results_ (shared p))) in
      let next := match o with
                  | Returns _ => LoopTest
                  | Raises e => Died e
                  end in
      Some (move i {| at_ := next; own := attrs q |}
              (with_results_ (results_q q) (shared p)) (trace q) p)
  | Exited | Died _ => None
  end.

(** A schedule names the worker that moves at each step. *)
Fixpoint exec (sched : list nat) (p : pool) : option pool :=
  match sched with
  | [] => Some p
  | i :: sched' => p' ← process_wrapper i p; exec sched' p'
  end.

(** [p.join()] can only return for a process whose [process_wrapper] has
    returned or was left by an exception.  (A process that has put rows on
    the result queue ends only once its rows are written to the pipe, so
    this is what a join needs, not all that it may wait for.) *)
Definition ended (w : worker) : bool :=
  match at_ w with
  | Exited | Died _ => true
  | _ => false
  end.

Definition all_joined (p : pool) : bool := forallb ended (workers p).

(** Lines 98-106 of [process_ids]: set the flag, fill the queue, create
    [num_workers] processes that run [process_wrapper] on a copy of the
    parent's attributes. *)
Definition spawn (self : IParallelSolver) (h : H) (set_ids : list SetID)
    (results_file : option string) : pool :=
  let self1 := with_save_all_results_ (bool_decide (results_file ≠ None)) self in
  let self2 := foldl (λ s set_id, with_set_ids_ (queue_put set_id (set_ids_ s)) s)
                 self1 set_ids in
  {| shared := self2;
     workers := replicate (Z.to_nat (num_workers self)) {| at_ := Start; own := h |};
     log := [] |}.

(** What the caller of [process_ids] has when the call is over. *)
Record world : Type := {
  solver : IParallelSolver;
  parent : H;
  files : gmap string (list string);
  seen : list event;
  ending : outcome unit
}.

(** [process_ids(self, set_ids, results_file=None)] under a schedule of the
    workers: [None] when the schedule does not bring every worker to its end
    (the joins do not return), otherwise the state in which the call
    returns, after [maybe_save_results] and the closing message of line
    116. *)
Definition process_ids (sched : list nat) (self : IParallelSolver) (h : H)
    (fs : gmap string (list string)) (set_ids : list SetID)
    (results_file : option string) : option world :=
  p ← exec sched (spawn self h set_ids results_file);
  if all_joined p then
    let r := maybe_save_results hooks results_file (shared p) h fs in
    Some {| solver := saved_self r; parent := saved_attrs r;
            files := saved_files r;
            seen := log p ++ (Print <$> saved_printed r)
                    ++ [Print "All results have been processed and saved."];
            ending := saved_outcome r |}
  else None.

End Solver.

Arguments after {H A} _.
Arguments printed {H A} _.
Arguments result {H A} _.

(** ** Reading a trace *)

(** The set IDs taken from the task queue, in the order they were taken. *)
Definition dequeued (l : list event) : list SetID :=
  omap (λ ev, match ev with Dequeue set_id => Some set_id | _ => None end) l.

(** The rows put on the result queue, in order. *)
Definition pushed (l : list event) : list Row :=
  omap (λ ev, match ev with Push row => Some row | _ => None end) l.

(** The calls of hook [c] (for [LocalPersist], with any row): the set ID each
    was made for and how it ended. *)
Definition same_hook (c d : hook_call) : bool :=
  match c, d with
  | BeginLogging, BeginLogging | Compute, Compute | Aggregate, Aggregate
  | StopLogging, StopLogging | LocalPersist _, LocalPersist _ => true
  | _, _ => false
  end.

Definition calls (c : hook_call) (l : list event) : list (SetID * option exn) :=
  omap (λ ev, match ev with
              | Hook set_id d exc => if same_hook c d then Some (set_id, exc) else None
              | _ => None
              end) l.

(** The set IDs that entered the per-task pipeline: its first statement is
    the call of [maybe_begin_logging]. *)
Definition processed (l : list event) : list SetID := (calls BeginLogging l).*1.

(** The rows handed to [maybe_save_local_results]. *)
Definition persisted (l : list event) : list (SetID * Row) :=
  omap (λ ev, match ev with
              | Hook set_id (LocalPersist row) _ => Some (set_id, row)
              | _ => None
              end) l.

(** A trace without the printed lines. *)
Definition skel (l : list event) : list event :=
  omap (λ ev, match ev with Print _ => None | _ => Some ev end) l.

(** The exceptions that left a hook, with the hook. *)
Definition raisers (l : list event) : list (hook_call * exn) :=
  omap (λ ev, match ev with
              | Hook _ c (Some e) => Some (c, e)
              | _ => None
              end) l.

(** The line a handler of the loop body prints for an exception of hook [c]:
    the hooks of the [try] block go to the first handler, those of the
    [finally] block to the second. *)
Definition report (set_id : SetID) (c : hook_call) (e : exn) : string :=
  match c with
  | StopLogging | LocalPersist _ =>
      "Error stopping logs or saving local results for set ID " +:+ set_id +:+ ": " +:+ e
  | BeginLogging | Compute | Aggregate =>
      "Error processing/saving data for set ID " +:+ set_id +:+ ": " +:+ e
  end.

(** The number of tasks whose compute and aggregate steps both returned: the
    aggregate step is only reached when compute has returned, so these are
    the calls of the aggregate hook that returned. *)
Definition succeeded (l : list event) : nat :=
  length (filter (λ c, c.2 = None) (calls Aggregate l)).

(** ** Properties of a pool *)

Section Predicates.
Context {H R : Type}.
Variable hooks : @Hooks H R.

(** No worker has been killed by an exception. *)
Definition alive (p : @pool H) : Prop :=
  Forall (λ w, ∀ e, at_ w ≠ Died e) (workers p).

(** The result queue holds what it held at the start and then the rows
    pushed since, and the pushes number the successful tasks when the flag
    is set and zero when it is not. *)
Definition results_inv (results0 : list Row) (p : @pool H) : Prop :=
  results_ (shared p) = results0 ++ pushed (log p)
  ∧ length (pushed (log p))
    = (if save_all_results_ (shared p) then succeeded (log p) else 0).

(** The set ID a worker has taken and not yet run through the loop body. *)
Definition holding (w : @worker H) : list SetID :=
  match at_ w with
  | Task set_id => [set_id]
  | _ => []
  end.

Definition inflight (ws : list (@worker H)) : list SetID := ws ≫= holding.

(** A worker cannot move. *)
Definition stuck (p : @pool H) : Prop := ∀ i, process_wrapper hooks fifo_get i p = None.

(** How far a worker is from the end of its current round. *)
Definition weight (c : pc) : nat :=
  match c with
  | Start => 3
  | LoopTest => 2
  | Get => 1
  | Task _ => 3
  | Exited | Died _ => 0
  end.

Definition measure (p : @pool H) : nat :=
  3 * length (set_ids_ (shared p)) + sum_list_with (weight ∘ at_) (workers p).

(** What ties the trace to the queue while the pool drains [set_ids]: the
    IDs taken so far and the IDs still queued make up [set_ids], in order;
    an ID taken is either through the loop body or in the hands of a
    worker; a worker leaves its loop only once the queue is empty. *)
Definition drain_inv (set_ids : list SetID) (p : @pool H) : Prop :=
  dequeued (log p) ++ set_ids_ (shared p) = set_ids
  ∧ dequeued (log p) ≡ₚ processed (log p) ++ inflight (workers p)
  ∧ (Exists (λ w, at_ w = Exited) (workers p) → set_ids_ (shared p) = []).

(** A pool of one worker that, when it stands at [get()], has an item to
    take. *)
Definition solo (p : @pool H) : Prop :=
  ∃ w, workers p = [w]
    ∧ (at_ w = Get → set_ids_ (shared p) ≠ [])
    ∧ (∀ e, at_ w ≠ Died e).

End Predicates.

(** ** Calls from outside *)

Section Caller.
Context {H R : Type}.
Variable hooks : @Hooks H R.
Variable queue_get : list SetID → get_result.

(** What a program has before its first call of [process_ids]. *)
Definition outset (self : IParallelSolver) (h : H)
    (fs : gmap string (list string)) : @world H :=
  {| solver := self; parent := h; files := fs; seen := []; ending := Returns tt |}.

(** A program that calls [process_ids] again and again on one solver: each
    call has its schedule, its set IDs and its results file.  [None] when
    some call does not return; an exception ends the program. *)
Fixpoint session (cs : list (list nat * list SetID * option string))
    (w : @world H) : option (@world H) :=
  match cs with
  | [] => Some w
  | (sched, set_ids, results_file) :: cs' =>
      w' ← process_ids hooks queue_get sched (solver w) (parent w) (files w)
             set_ids results_file;
      match ending w' with
      | Returns _ => session cs' w'
      | Raises _ => Some w'
      end
  end.

End Caller.

(** ** The methods of [IParallelSolver] itself

    The class has no attributes of its own beyond the four of the record, and
    its processing function returns a fixed [dict]. *)

Module Base.

Definition says {A} (lines : list string) (a : A) : @hook_result unit A :=
  {| after := tt; printed := lines; result := Returns a |}.

(** [maybe_begin_logging(self, set_id)] *)
Definition maybe_begin_logging (set_id : SetID) (_ : unit) : @hook_result unit unit :=
  says ["Starting logging for set ID " +:+ set_id +:+ "."] tt.

(** [get_process_function_result(self, set_id)] *)
Definition get_process_function_result (set_id : SetID) (_ : unit)
    : @hook_result unit (gmap string string) :=
  says ["Getting process function result for set ID " +:+ set_id +:+ "."]
    {["result" := "sample result"]}.

(** [aggregate_process_function_result(self, result)] *)
Definition aggregate_process_function_result (result : gmap string string) (_ : unit)
    : @hook_result unit Row :=
  says ["Aggregating process function result."] "Aggregated result string.".

(** [maybe_stop_logging(self)] *)
Definition maybe_stop_logging (_ : unit) : @hook_result unit unit :=
  says ["Stopping logging."] tt.

(** [maybe_save_local_results(self, set_id, res_string)] *)
Definition maybe_save_local_results (set_id : SetID) (res_string : Row) (_ : unit)
    : @hook_result unit unit :=
  says ["Saving local results for set ID " +:+ set_id
        +:+ ". Result string: " +:+ res_string] tt.

(** The truth value of [results_file] in [if results_file:]: [None] and the
    empty string are false. *)
Definition truthy (results_file : option string) : bool :=
  match results_file with
  | Some (String _ _) => true
  | Some EmptyString | None => false
  end.

(** [maybe_save_results(self, results_file)]: the saving itself is left as
    a placeholder, only the message is there. *)
Definition maybe_save_results {H} (results_file : option string) (self : IParallelSolver)
    (h : H) (fs : gmap string (list string)) : @save_result H :=
  {| saved_self := self; saved_attrs := h; saved_files := fs;
     saved_printed :=
       [if truthy results_file
        then "Saving all results to " +:+ default "" results_file +:+ "."
        else "No results file specified, skipping save."];
     saved_outcome := Returns tt |}.

Definition hooks : @Hooks unit (gmap string string) :=
  @Build_Hooks unit (gmap string string)
    maybe_begin_logging get_process_function_result
    aggregate_process_function_result maybe_stop_logging
    maybe_save_local_results maybe_save_results.

End Base.

(** ** Subclasses whose hooks fail on demand *)

(** A hook that raises [e] when told so and returns [a] otherwise. *)
Definition may_raise {A} (exc : option exn) (a : A) : @hook_result unit A :=
  {| after := tt; printed := [];
     result := match exc with
               | Some e => Raises e
               | None => Returns a
               end |}.

(** [fails c set_id] tells whether hook [c] raises while [set_id] is being
    handled ([LocalPersist ""] stands for the local save, [StopLogging] gets
    no set ID in the code and is asked with [""]).  The processing function
    returns the set ID and the aggregation appends a value to it. *)
Definition scripted (fails : hook_call → SetID → option exn) : @Hooks unit string :=
  @Build_Hooks unit string
    (λ set_id _, may_raise (fails BeginLogging set_id) tt)
    (λ set_id _, may_raise (fails Compute set_id) set_id)
    (λ result _, may_raise (fails Aggregate result) (result +:+ ",foo"))
    (λ _, may_raise (fails StopLogging "") tt)
    (λ set_id _ _, may_raise (fails (LocalPersist "") set_id) tt)
    Base.maybe_save_results.


(** Exactly hook [c] fails, with message [e], whatever the set ID. *)
Definition failing (c : hook_call) (e : exn) : hook_call → SetID → option exn :=
  λ d _, if same_hook c d then Some e else None.

(** The subclasses used as examples below. *)
Definition begin_fails : @Hooks unit string := scripted (failing BeginLogging "boom").
Definition compute_fails : @Hooks unit string := scripted (failing Compute "boom").
Definition stop_fails : @Hooks unit string := scripted (failing StopLogging "boom").

Definition compute_and_stop_fail : @Hooks unit string :=
  scripted (λ c _, match c with
                   | Compute | StopLogging => Some "boom"
                   | _ => None
                   end).

Definition aggregate_fails_on_b : @Hooks unit string :=
  scripted (λ c set_id, match c with
                        | Aggregate => if String.eqb set_id "b" then Some "boom" else None
                        | _ => None
                        end).

(** A schedule of the four default workers on which workers 0 and 1 both
    pass the test of the loop before either calls [get()]. *)
Definition race : list nat := [0; 1; 0; 1; 0; 0; 0; 2; 2; 3; 3].

(** A task queue whose [get()] raises. *)
Definition broken_get (e : exn) (q : list SetID) : get_result := GetRaises e.

(** ** The task queue with its feeder thread *)

(** What happens next in a fed pool: the feeder thread of the parent writes
    the oldest buffered set ID to the pipe, or worker [i] moves. *)
Inductive action : Type :=
| Feed
| Move (i : nat).

Section Feeder.
Context {H R : Type}.
Variable hooks : @Hooks H R.
Variable queue_get : list SetID → get_result.

(** [multiprocessing.Queue.put] appends the item to a buffer of the putting
    process, and a feeder thread of that process writes the buffered items
    to the pipe in order; [empty()] and [get()] look at the pipe only.  In a
    fed pool the list [set_ids_] of the running pool is what is in the pipe,
    and [buffered] is what the parent has put and its feeder thread has not
    written yet. *)
Record fed : Type := {
  running : @pool H;
  buffered : list SetID
}.

(** The feeder thread writes [set_id] to the pipe. *)
Definition feed (set_id : SetID) (p : @pool H) : @pool H :=
  {| shared := with_set_ids_ (queue_put set_id (set_ids_ (shared p))) (shared p);
     workers := workers p;
     log := log p |}.

Definition act (a : action) (s : fed) : option fed :=
  match a with
  | Feed =>
      match buffered s with
      | [] => None
      | set_id :: rest =>
          Some {| running := feed set_id (running s); buffered := rest |}
      end
  | Move i =>
      p' ← process_wrapper hooks queue_get i (running s);
      Some {| running := p'; buffered := buffered s |}
  end.

Fixpoint fed_exec (acts : list action) (s : fed) : option fed :=
  match acts with
  | [] => Some s
  | a :: acts' => s' ← act a s; fed_exec acts' s'
  end.

(** Lines 98-106 of [process_ids] once more: the flag is set, the set IDs
    are put, which leaves them in the buffer, and the workers are created.
    What was queued before the call is in the pipe. *)
Definition fed_spawn (self : IParallelSolver) (h : H) (set_ids : list SetID)
    (results_file : option string) : fed :=
  {| running := spawn self h [] results_file; buffered := set_ids |}.

(** [process_ids] on a fed pool: as soon as every worker has ended the
    joins can return, whatever is still queued. *)
Definition fed_process_ids (acts : list action) (self : IParallelSolver) (h : H)
    (fs : gmap string (list string)) (set_ids : list SetID)
    (results_file : option string) : option (@world H) :=
  s ← fed_exec acts (fed_spawn self h set_ids results_file);
  if all_joined (running s) then
    let self' := with_set_ids_ (set_ids_ (shared (running s)) ++ buffered s)
                   (shared (running s)) in
    let r := maybe_save_results hooks results_file self' h fs in
    Some {| solver := saved_self r; parent := saved_attrs r;
            files := saved_files r;
            seen := log (running s) ++ (Print <$> saved_printed r)
                    ++ [Print "All results have been processed and saved."];
            ending := saved_outcome r |}
  else None.

End Feeder.

(** The four default workers each test the queue before the feeder thread
    has written anything. *)
Definition early : list action :=
  [Move 0; Move 1; Move 2; Move 3; Move 0; Move 1; Move 2; Move 3].

(** ** Further notions for runs and traces *)

Section Quiet.
Context {H R : Type}.
Variable hooks : @Hooks H R.
Variable queue_get : list SetID → get_result.

(** No worker can move, whatever the task queue does. *)
Definition halted (p : @pool H) : Prop :=
  ∀ i, process_wrapper hooks queue_get i p = None.

End Quiet.

(** A task queue that hands out an item keeps fewer items than it had. *)
Definition shrinking (queue_get : list SetID → get_result) : Prop :=
  ∀ q set_id rest, queue_get q = Got set_id rest → length rest < length q.

(** The worker stands at [self.set_ids_.get()]. *)
Definition waiting {H} (w : @worker H) : bool :=
  match at_ w with
  | Get => true
  | _ => false
  end.

(** The hooks called, in the order of their calls, without the row that the
    local save was given. *)
Definition hook_order (l : list event) : list hook_call :=
  omap (λ ev, match ev with
              | Hook _ (LocalPersist _) _ => Some (LocalPersist "")
              | Hook _ c _ => Some c
              | _ => None
              end) l.

(** The one row that [aggregate_process_function_result] of the class returns. *)
Definition base_row : Row := "Aggregated result string.".

(** * Proofs *)

(** ** The per-task pipeline *)

Lemma omap_prints {B} (g : event → option B) (lines : list string) :
  (∀ line, g (Print line) = None) → omap g (Print <$> lines) = [].
Proof.
  intros Hg. induction lines as [|line lines IH]; simpl; [done|].
  by rewrite Hg.
Qed.

Lemma elem_of_prints (ev : event) (lines : list string) :
  ev ∈ Print <$> lines → ∃ line, ev = Print line.
Proof. intros (line & -> & _)%list_elem_of_fmap. by exists line. Qed.

Lemma omap_skel {B} (g : event → option B) (l : list event) :
  (∀ line, g (Print line) = None) → omap g l = omap g (skel l).
Proof.
  intros Hg. unfold skel.
  induction l as [|ev l IH]; [done|].
  destruct ev; csimpl; rewrite ?Hg, ?IH; done.
Qed.

Lemma dequeued_skel l : dequeued l = dequeued (skel l).
Proof. by apply omap_skel. Qed.
Lemma pushed_skel l : pushed l = pushed (skel l).
Proof. by apply omap_skel. Qed.
Lemma calls_skel c l : calls c l = calls c (skel l).
Proof. by apply omap_skel. Qed.
Lemma persisted_skel l : persisted l = persisted (skel l).
Proof. by apply omap_skel. Qed.
Lemma raisers_skel l : raisers l = raisers (skel l).
Proof. by apply omap_skel. Qed.

(** Bring the projections of a trace built with [++] to normal form. *)
Ltac trace_simpl :=
  unfold succeeded, processed, dequeued, pushed, calls, persisted, raisers, queue_put;
  repeat first
    [ rewrite omap_app
    | rewrite (omap_prints _ _ (λ _, eq_refl))
    | rewrite fmap_app
    | rewrite filter_app
    | rewrite length_app
    | rewrite app_nil_r
    | rewrite <- app_assoc ];
  simpl.

(** Find an element that occurs literally in a list built from [++] and [::]. *)
Ltac find_elem :=
  first [ apply list_elem_of_here
        | apply list_elem_of_further; find_elem
        | apply elem_of_app; first [ right; find_elem | left; find_elem ] ].

(** Run [process_task] symbolically: one case per way the hooks can end. *)
Ltac task_cases hooks :=
  unfold process_task;
  cbv [mbind M_bind mret M_ret try_finally try_except call print emit
       assign_res_string read_res_string results_put];
  simpl;
  repeat match goal with
    | |- context [result (maybe_begin_logging hooks ?a ?b)] =>
        destruct (maybe_begin_logging hooks a b) as [? ? [[]|?]]; simpl
    | |- context [result (get_process_function_result hooks ?a ?b)] =>
        destruct (get_process_function_result hooks a b) as [? ? [?|?]]; simpl
    | |- context [result (aggregate_process_function_result hooks ?a ?b)] =>
        destruct (aggregate_process_function_result hooks a b) as [? ? [?|?]]; simpl
    | |- context [result (maybe_stop_logging hooks ?b)] =>
        destruct (maybe_stop_logging hooks b) as [? ? [[]|?]]; simpl
    | |- context [result (maybe_save_local_results hooks ?a ?r ?b)] =>
        destruct (maybe_save_local_results hooks a r b) as [? ? [[]|?]]; simpl
    | |- context [if ?b then _ else _] => is_var b; destruct b; simpl
    end.

Lemma dequeued_app l k : dequeued (l ++ k) = dequeued l ++ dequeued k.
Proof. apply omap_app. Qed.
Lemma pushed_app l k : pushed (l ++ k) = pushed l ++ pushed k.
Proof. apply omap_app. Qed.
Lemma calls_app c l k : calls c (l ++ k) = calls c l ++ calls c k.
Proof. apply omap_app. Qed.
Lemma persisted_app l k : persisted (l ++ k) = persisted l ++ persisted k.
Proof. apply omap_app. Qed.
Lemma processed_app l k : processed (l ++ k) = processed l ++ processed k.
Proof. unfold processed. by rewrite calls_app, fmap_app. Qed.
Lemma succeeded_app l k : succeeded (l ++ k) = succeeded l + succeeded k.
Proof. unfold succeeded. by rewrite calls_app, filter_app, length_app. Qed.

Section Pipeline.
Context {H R : Type}.
Variable hooks : @Hooks H R.
Implicit Types (p : @proc H) (set_id : SetID) (save_all : bool).

(** No exception leaves the loop body. *)
Lemma process_task_returns save_all set_id p :
  (process_task hooks save_all set_id p).2 = Returns tt.
Proof. task_cases hooks; reflexivity. Qed.

(** Everything the later proofs use about one run of the loop body, by
    cases on how the five hooks end. *)
Lemma process_task_spec save_all set_id h results q o :
  process_task hooks save_all set_id (fresh h results) = (q, o) →
  ∀ tr, tr = trace q →
  o = Returns tt
  ∧ dequeued tr = []
  ∧ processed tr = [set_id]
  ∧ (∃ exc, calls StopLogging tr = [(set_id, exc)])
  ∧ results_q q = results ++ pushed tr
  ∧ succeeded tr ≤ 1
  ∧ length (pushed tr) = (if save_all then succeeded tr else 0)
  ∧ pushed tr = (if save_all && bool_decide (calls Aggregate tr = [(set_id, None)])
                 then [res_string q] else [])
  ∧ (calls BeginLogging tr = [(set_id, None)] ↔ length (calls Compute tr) = 1)
  ∧ (calls BeginLogging tr ≠ [(set_id, None)] → calls Compute tr = [])
  ∧ (calls Compute tr = [(set_id, None)] ↔ length (calls Aggregate tr) = 1)
  ∧ (calls Compute tr ≠ [(set_id, None)] → calls Aggregate tr = [])
  ∧ (calls Aggregate tr ≠ [(set_id, None)] → res_string q = "")
  ∧ (calls StopLogging tr = [(set_id, None)] →
       persisted tr = [(set_id, res_string q)])
  ∧ (calls StopLogging tr ≠ [(set_id, None)] → persisted tr = [])
  ∧ (∀ c e, (c, e) ∈ raisers tr → Print (report set_id c e) ∈ tr).
Proof.
  unfold fresh. task_cases hooks; intros [= <- <-] tr Htr; simpl in Htr.
  all: eassert (skel tr = _) as Hs
         by (rewrite Htr; unfold skel; trace_simpl; reflexivity).
  all: assert (∀ c e, (c, e) ∈ raisers tr → Print (report set_id c e) ∈ tr) as Hrep
         by (intros c' e'; rewrite (raisers_skel tr), Hs; simpl; intros Hin;
             repeat match goal with
               | Hin : _ ∈ _ :: _ |- _ => apply elem_of_cons in Hin as [[= -> ->]|Hin]
               | Hin : _ ∈ [] |- _ => by apply elem_of_nil in Hin
               end;
             rewrite Htr; simpl; find_elem).
  all: clear Htr; unfold succeeded, processed;
    rewrite ?(dequeued_skel tr), ?(pushed_skel tr), ?(calls_skel _ tr),
      ?(persisted_skel tr), ?Hs; simpl.
  all: repeat match goal with |- _ ∧ _ => split end;
    rewrite ?app_nil_r; try case_bool_decide; try done; eauto.
Qed.

End Pipeline.

(** ** Runs of the pool *)

Section Pool.
Context {H R : Type}.
Variable hooks : @Hooks H R.
Variable queue_get : list SetID → get_result.
Implicit Types (p : @pool H) (w : @worker H) (i : nat) (sched : list nat).

Abbreviation step := (process_wrapper hooks queue_get).
Abbreviation run := (exec hooks queue_get).

Lemma exec_app sched1 sched2 p :
  run (sched1 ++ sched2) p = run sched1 p ≫= run sched2.
Proof.
  revert p. induction sched1 as [|i sched1 IH]; intros p; simpl; [done|].
  destruct (step i p) as [p'|]; simpl; [apply IH | done].
Qed.

Lemma exec_cons i sched p p' :
  step i p = Some p' → run (i :: sched) p = run sched p'.
Proof. intros Hstep. simpl. by rewrite Hstep. Qed.

(** A property kept by every step holds along every run. *)
Lemma exec_invariant (P : pool → Prop) :
  (∀ i p p', P p → step i p = Some p' → P p') →
  ∀ sched p p', P p → run sched p = Some p' → P p'.
Proof.
  intros Hstep sched. induction sched as [|i sched IH]; intros p p' HP Hrun.
  - by simplify_eq/=.
  - simpl in Hrun. destruct (step i p) as [p1|] eqn:Hp1; [|done].
    simpl in Hrun. eauto.
Qed.

(** The cases of one step. *)
Lemma worker_step_cases i p p' :
  step i p = Some p' →
  ∃ w, workers p !! i = Some w ∧
    match at_ w with
    | Start =>
        p' = move i {| at_ := LoopTest; own := own w |} (shared p)
               [Print "Starting process_wrapper..."] p
    | LoopTest =>
        p' = move i {| at_ := if queue_empty (set_ids_ (shared p)) then Exited else Get;
                       own := own w |} (shared p) [] p
    | Get =>
        match queue_get (set_ids_ (shared p)) with
        | Got set_id rest =>
            p' = move i {| at_ := Task set_id; own := own w |}
                   (with_set_ids_ rest (shared p))
                   [Dequeue set_id; Print ("Processing set ID: " +:+ set_id)] p
        | Blocks => False
        | GetRaises e =>
            p' = move i {| at_ := Exited; own := own w |} (shared p)
                   [Print ("Error retrieving set ID from queue: " +:+ e)] p
        end
    | Task set_id =>
        let q := (process_task hooks (save_all_results_ (shared p)) set_id
                    (fresh (own w) (results_ (shared p)))).1 in
        p' = move i {| at_ := LoopTest; own := attrs q |}
               (with_results_ (results_q q) (shared p)) (trace q) p
    | Exited | Died _ => False
    end.
Proof.
  unfold process_wrapper. intros Hstep.
  destruct (workers p !! i) as [w|]; simpl in Hstep; [|done].
  exists w. split; [done|].
  destruct (at_ w) as [| | |set_id| |e]; try done.
  - by simplify_eq.
  - destruct (queue_empty _); by simplify_eq.
  - destruct (queue_get _); by simplify_eq.
  - pose proof (process_task_returns hooks (save_all_results_ (shared p)) set_id
        (fresh (own w) (results_ (shared p)))) as Hret.
    destruct (process_task _ _ _ _) as [q o]. simpl in *. subst o. by simplify_eq.
Qed.

(** The steps one by one. *)
Lemma move_lookup i (w : @worker H) s evs p :
  i < length (workers p) → workers (move i w s evs p) !! i = Some w.
Proof. intros Hi. simpl. by apply list_lookup_insert_eq. Qed.

Lemma step_at_test i p w :
  workers p !! i = Some w → at_ w = LoopTest →
  step i p = Some (move i {| at_ := if queue_empty (set_ids_ (shared p))
                                    then Exited else Get;
                             own := own w |} (shared p) [] p).
Proof.
  intros Hw Hat. unfold process_wrapper. rewrite Hw. simpl. rewrite Hat.
  by destruct (queue_empty _).
Qed.

Lemma step_at_get i p w :
  workers p !! i = Some w → at_ w = Get →
  step i p =
    match queue_get (set_ids_ (shared p)) with
    | Got set_id rest =>
        Some (move i {| at_ := Task set_id; own := own w |}
                (with_set_ids_ rest (shared p))
                [Dequeue set_id; Print ("Processing set ID: " +:+ set_id)] p)
    | Blocks => None
    | GetRaises e =>
        Some (move i {| at_ := Exited; own := own w |} (shared p)
                [Print ("Error retrieving set ID from queue: " +:+ e)] p)
    end.
Proof. intros Hw Hat. unfold process_wrapper. rewrite Hw. simpl. by rewrite Hat. Qed.

Lemma step_at_task i p w set_id q o :
  workers p !! i = Some w → at_ w = Task set_id →
  process_task hooks (save_all_results_ (shared p)) set_id
    (fresh (own w) (results_ (shared p))) = (q, o) →
  step i p = Some (move i {| at_ := LoopTest; own := attrs q |}
                     (with_results_ (results_q q) (shared p)) (trace q) p).
Proof.
  intros Hw Hat Hq.
  pose proof (process_task_returns hooks (save_all_results_ (shared p)) set_id
                (fresh (own w) (results_ (shared p)))) as Hret.
  unfold process_wrapper. rewrite Hw. simpl. rewrite Hat, Hq. rewrite Hq in Hret.
  simpl in Hret. by subst o.
Qed.

Lemma step_at_end i p w :
  workers p !! i = Some w → ended w = true → step i p = None.
Proof.
  intros Hw Hend. unfold process_wrapper. rewrite Hw. simpl.
  unfold ended in Hend. by destruct (at_ w).
Qed.

End Pool.

(** Case analysis on a step [Hstep : process_wrapper hooks queue_get i p = Some p']. *)
Ltac step_inv Hstep :=
  let w := fresh "w" in
  let Hw := fresh "Hw" in
  let Hcase := fresh "Hcase" in
  let Hat := fresh "Hat" in
  apply worker_step_cases in Hstep as (w & Hw & Hcase);
  destruct (at_ w) eqn:Hat; simpl in Hcase; try done;
  [ | | match type of Hcase with
        | match ?g with _ => _ end =>
            let Hget := fresh "Hget" in
            destruct g eqn:Hget; try done
        end
      | match type of Hcase with
        | context [process_task ?hooks ?b ?x ?f] =>
            let q := fresh "q" in
            let o := fresh "o" in
            let Hq := fresh "Hq" in
            let Hspec := fresh "Hspec" in
            destruct (process_task hooks b x f) as [q o] eqn:Hq;
            pose proof (process_task_spec hooks _ _ _ _ _ _ Hq _ eq_refl) as Hspec;
            simpl in Hcase
        end ];
  subst.

Section Invariants.
Context {H R : Type}.
Variable hooks : @Hooks H R.
Variable queue_get : list SetID → get_result.
Implicit Types (p : @pool H) (w : @worker H) (i : nat) (sched : list nat).

Abbreviation step := (process_wrapper hooks queue_get).
Abbreviation run := (exec hooks queue_get).

(** The scalar attributes and the size of the pool never change. *)
Lemma step_fixed i p p' :
  step i p = Some p' →
  save_all_results_ (shared p') = save_all_results_ (shared p)
  ∧ num_workers (shared p') = num_workers (shared p)
  ∧ length (workers p') = length (workers p).
Proof. intros Hstep. step_inv Hstep; simpl; by rewrite length_insert. Qed.

Lemma exec_fixed sched p p' :
  run sched p = Some p' →
  save_all_results_ (shared p') = save_all_results_ (shared p)
  ∧ num_workers (shared p') = num_workers (shared p)
  ∧ length (workers p') = length (workers p).
Proof.
  intros Hrun.
  apply (exec_invariant hooks queue_get
    (λ p', save_all_results_ (shared p') = save_all_results_ (shared p)
    ∧ num_workers (shared p') = num_workers (shared p)
    ∧ length (workers p') = length (workers p))) with sched p; [|done|done].
  intros i p1 p2 (<- & <- & <-) Hstep%step_fixed. done.
Qed.


Lemma step_alive i p p' : alive p → step i p = Some p' → alive p'.
Proof.
  unfold alive. intros Hp Hstep.
  step_inv Hstep; simpl; apply Forall_insert; try done; simpl; try done.
  by destruct (queue_empty _).
Qed.

Lemma exec_alive sched p p' : alive p → run sched p = Some p' → alive p'.
Proof. apply exec_invariant, step_alive. Qed.

End Invariants.

(** ** The result queue along a run *)

Section Results.
Context {H R : Type}.
Variable hooks : @Hooks H R.
Variable queue_get : list SetID → get_result.
Implicit Types (p : @pool H) (i : nat) (sched : list nat).


Lemma step_results results0 i p p' :
  results_inv results0 p →
  process_wrapper hooks queue_get i p = Some p' →
  results_inv results0 p'.
Proof.
  unfold results_inv. intros [Hres Hlen] Hstep.
  step_inv Hstep; simpl;
    rewrite ?pushed_app, ?succeeded_app, ?length_app; simpl;
    rewrite ?app_nil_r, ?Nat.add_0_r; try done.
  destruct Hspec as (_ & _ & _ & _ & Hq' & _ & Hlen' & _).
  rewrite Hq', Hres, Hlen, Hlen', <- app_assoc.
  split; [done|]. by destruct (save_all_results_ (shared p)).
Qed.

Lemma exec_results results0 sched p p' :
  results_inv results0 p →
  exec hooks queue_get sched p = Some p' →
  results_inv results0 p'.
Proof. apply exec_invariant, step_results. Qed.

End Results.

(** ** Draining the first-in-first-out task queue *)

Section Fifo.
Context {H R : Type}.
Variable hooks : @Hooks H R.
Implicit Types (p : @pool H) (w : @worker H) (ws : list (@worker H))
  (i : nat) (sched : list nat).

Abbreviation step := (process_wrapper hooks fifo_get).
Abbreviation run := (exec hooks fifo_get).


Lemma inflight_insert ws i w w' :
  ws !! i = Some w →
  holding w ++ inflight (<[i := w']> ws) ≡ₚ holding w' ++ inflight ws.
Proof.
  intros Hw. unfold inflight.
  rewrite insert_take_drop by (by eapply lookup_lt_Some).
  rewrite <- (take_drop_middle ws i w Hw) at 3.
  rewrite !bind_app, !bind_cons.
  generalize (take i ws ≫= holding) (drop (S i) ws ≫= holding).
  intros l1 l2. solve_Permutation.
Qed.

Lemma weight_insert ws i w w' :
  ws !! i = Some w →
  weight (at_ w) + sum_list_with (weight ∘ at_) (<[i := w']> ws)
  = weight (at_ w') + sum_list_with (weight ∘ at_) ws.
Proof.
  intros Hw.
  rewrite insert_take_drop by (by eapply lookup_lt_Some).
  rewrite <- (take_drop_middle ws i w Hw) at 3.
  rewrite !sum_list_with_app. simpl. lia.
Qed.

(** Every step brings the pool closer to its end. *)
Lemma step_measure i p p' : step i p = Some p' → measure p' < measure p.
Proof.
  unfold measure. intros Hstep.
  step_inv Hstep; simpl;
    match goal with
    | Hw : workers p !! i = Some ?w |- context [<[i := ?w']> _] =>
        pose proof (weight_insert (workers p) i w w' Hw) as Hsum
    end;
    rewrite Hat in Hsum; simpl in Hsum.
  - lia.
  - destruct (queue_empty _); simpl in *; lia.
  - destruct (set_ids_ (shared p)) as [|x q'] eqn:Hq'; simplify_eq/=. lia.
  - by destruct (set_ids_ (shared p)).
  - lia.
Qed.

(** From every state the pool can be run until no worker can move. *)
Lemma exec_to_stuck p : ∃ sched p', run sched p = Some p' ∧ stuck hooks p'.
Proof.
  remember (measure p) as m eqn:Hm. revert p Hm.
  induction (lt_wf m) as [m _ IH]. intros p ->.
  destruct (decide (Exists (λ i, is_Some (step i p)) (seq 0 (length (workers p)))))
    as [Hex|Hno].
  - apply Exists_exists in Hex as (i & _ & [p1 Hp1]).
    pose proof (step_measure _ _ _ Hp1) as Hlt.
    destruct (IH (measure p1) Hlt p1 eq_refl) as (sched & p' & Hrun & Hstuck).
    exists (i :: sched), p'. simpl. rewrite Hp1. done.
  - exists [], p. split; [done|]. intros i.
    destruct (step i p) as [p1|] eqn:Hp1; [|done]. exfalso. apply Hno.
    apply Exists_exists. exists i. split; [|by eexists].
    apply elem_of_seq. split; [lia|]. simpl.
    apply worker_step_cases in Hp1 as (w & Hw & _).
    by eapply lookup_lt_Some.
Qed.

End Fifo.

Section Drain.
Context {H R : Type}.
Variable hooks : @Hooks H R.
Implicit Types (p : @pool H) (w : @worker H) (ws : list (@worker H))
  (i : nat) (sched : list nat).


Lemma Exists_insert_inv (P : @worker H → Prop) ws i w' :
  Exists P (<[i := w']> ws) → P w' ∨ Exists P ws.
Proof.
  rewrite !Exists_exists. intros (w & Hin & HP).
  apply list_elem_of_lookup in Hin as [j Hj].
  destruct (decide (i = j)) as [->|Hne].
  - apply list_lookup_insert_Some in Hj as [(_ & <- & _)|[? _]]; [by left|done].
  - rewrite list_lookup_insert_ne in Hj by done.
    right. exists w. split; [|done]. by eapply list_elem_of_lookup_2.
Qed.

Lemma step_drain set_ids i p p' :
  drain_inv set_ids p → process_wrapper hooks fifo_get i p = Some p' →
  drain_inv set_ids p'.
Proof.
  unfold drain_inv. intros (Hq & Hperm & Hex) Hstep.
  step_inv Hstep; simpl;
    match goal with
    | Hw : workers p !! i = Some ?w |- context [<[i := ?w']> _] =>
        pose proof (inflight_insert (workers p) i w w' Hw) as Hfl;
        unfold holding in Hfl; rewrite Hat in Hfl; simpl in Hfl
    end;
    rewrite ?dequeued_app, ?processed_app; simpl; rewrite ?app_nil_r.
  - rewrite Hfl. split_and!; [done..|].
    intros [?|?]%Exists_insert_inv; [done|auto].
  - destruct (set_ids_ (shared p)) as [|x rest] eqn:Hrest; simpl in *;
      rewrite Hfl; (split_and!; [done..|]).
    + done.
    + intros [?|?]%Exists_insert_inv; [done|auto].
  - destruct (set_ids_ (shared p)) as [|x rest'] eqn:Hrest; simplify_eq/=.
    rewrite <- app_assoc. split_and!; [done| |].
    + rewrite Hfl, Hperm. solve_Permutation.
    + intros [?|?%Hex]%Exists_insert_inv; done.
  - by destruct (set_ids_ (shared p)).
  - destruct Hspec as (_ & -> & -> & _). rewrite app_nil_r.
    split_and!; [done| |].
    + rewrite Hperm, <- Hfl. solve_Permutation.
    + intros [?|?]%Exists_insert_inv; [done|auto].
Qed.

Lemma exec_drain set_ids sched p p' :
  drain_inv set_ids p → exec hooks fifo_get sched p = Some p' →
  drain_inv set_ids p'.
Proof. apply exec_invariant, step_drain. Qed.

(** In a pool where nobody can move, every worker has left its loop or waits
    in [get()] on the empty queue. *)
Lemma stuck_worker p i w :
  stuck hooks p → workers p !! i = Some w →
  at_ w = Exited ∨ (∃ e, at_ w = Died e)
  ∨ (at_ w = Get ∧ set_ids_ (shared p) = []).
Proof.
  intros Hstuck Hw. specialize (Hstuck i). unfold process_wrapper in Hstuck.
  rewrite Hw in Hstuck. simpl in Hstuck.
  destruct (at_ w) as [| | |set_id| |e]; try done; eauto.
  - by destruct (queue_empty _).
  - right; right. split; [done|]. by destruct (set_ids_ (shared p)).
  - by destruct (process_task _ _ _ _).
Qed.

Lemma inflight_nil ws : Forall (λ w, holding w = []) ws → inflight ws = [].
Proof.
  unfold inflight. induction 1 as [|w ws Hw _ IH]; [done|].
  by rewrite bind_cons, Hw, IH.
Qed.

(** Filling the queue (lines 101-103). *)
Lemma fill_queue (s : IParallelSolver) (set_ids : list SetID) :
  foldl (λ s set_id, with_set_ids_ (queue_put set_id (set_ids_ s)) s) s set_ids
  = with_set_ids_ (set_ids_ s ++ set_ids) s.
Proof.
  revert s. induction set_ids as [|x l IH]; intros s; simpl.
  - rewrite app_nil_r. by destruct s.
  - rewrite IH. unfold with_set_ids_, queue_put. simpl. by rewrite <- app_assoc.
Qed.

(** The pool right after [spawn]. *)
Lemma spawn_shared (self : IParallelSolver) (h : H) set_ids results_file :
  shared (spawn self h set_ids results_file)
  = with_set_ids_ (set_ids_ self ++ set_ids)
      (with_save_all_results_ (bool_decide (results_file ≠ None)) self).
Proof. unfold spawn. simpl. by rewrite fill_queue. Qed.

Lemma spawn_alive (self : IParallelSolver) (h : H) set_ids results_file :
  alive (spawn self h set_ids results_file).
Proof. unfold alive, spawn. simpl. by apply Forall_replicate. Qed.

Lemma spawn_drain (self : IParallelSolver) (h : H) set_ids results_file :
  set_ids_ self = [] →
  drain_inv set_ids (spawn self h set_ids results_file).
Proof.
  intros Hempty. unfold drain_inv. rewrite spawn_shared, Hempty. simpl.
  split_and!; [done| |].
  - rewrite inflight_nil; [done|]. by apply Forall_replicate.
  - intros (w & [-> _]%elem_of_replicate & Hat)%Exists_exists. done.
Qed.

End Drain.

(** ** The loop body seen from its hooks *)

Section Task.
Context {H R : Type}.
Variable hooks : @Hooks H R.
Implicit Types (h : H) (set_id : SetID) (save_all : bool).

(** The first hook the body calls is [maybe_begin_logging], on the attributes
    the worker came with. *)
Lemma process_task_begin save_all set_id h results :
  calls BeginLogging (trace (process_task hooks save_all set_id (fresh h results)).1)
  = [(set_id, raised (result (maybe_begin_logging hooks set_id h)))].
Proof. unfold fresh. task_cases hooks; trace_simpl; reflexivity. Qed.

(** An exception recorded for a call is an exception of that hook. *)
Lemma calls_raisers c set_id e l :
  (set_id, Some e) ∈ calls c l → ∃ d, same_hook c d = true ∧ (d, e) ∈ raisers l.
Proof.
  unfold calls, raisers. induction l as [|ev l IH]; csimpl.
  - by intros ?%elem_of_nil.
  - destruct ev as [| | |x d [e'|]]; csimpl; try done.
    + destruct (same_hook c d) eqn:Hcd; csimpl.
      * intros [[= <- <-]|Hin]%elem_of_cons.
        -- exists d. split; [done|]. apply list_elem_of_here.
        -- destruct (IH Hin) as (d' & ? & ?). exists d'. split; [done|].
           by apply list_elem_of_further.
      * intros Hin. destruct (IH Hin) as (d' & ? & ?). exists d'. split; [done|].
        by apply list_elem_of_further.
    + destruct (same_hook c d); csimpl.
      * intros [[=]|Hin]%elem_of_cons. by apply IH.
      * apply IH.
Qed.

End Task.

(** * The per-task pipeline and its failures *)

(** C5, as the code has it.  An exception of the begin-logging hook is the
    failure of the task: it does not leave the loop body, the handler of the
    [try] block reports it, and stop-logging is still called.  When
    stop-logging returns, the local save is then called once, with the empty
    row; when stop-logging raises too, the local save is not called.  The
    compute and aggregate steps are not invoked for that set ID and nothing
    is pushed. *)
Theorem begin_logging_failure_fails_task {H R} (hooks : @Hooks H R)
    (save_all : bool) (set_id : SetID) (h : H) (results : list Row) (e : exn) :
  result (maybe_begin_logging hooks set_id h) = Raises e →
  ∀ q o, process_task hooks save_all set_id (fresh h results) = (q, o) →
  o = Returns tt
  ∧ calls Compute (trace q) = []
  ∧ calls Aggregate (trace q) = []
  ∧ pushed (trace q) = []
  ∧ results_q q = results
  ∧ Print (report set_id BeginLogging e) ∈ trace q
  ∧ (∃ exc, calls StopLogging (trace q) = [(set_id, exc)])
  ∧ (∀ x, x ∈ persisted (trace q) → x = (set_id, ""))
  ∧ (calls StopLogging (trace q) = [(set_id, None)] →
       persisted (trace q) = [(set_id, "")])
  ∧ (calls StopLogging (trace q) ≠ [(set_id, None)] → persisted (trace q) = []).
Proof.
  intros Hbegin q o Hq.
  pose proof (process_task_begin hooks save_all set_id h results) as Hcalls.
  rewrite Hq, Hbegin in Hcalls. simpl in Hcalls.
  destruct (process_task_spec hooks _ _ _ _ _ _ Hq _ eq_refl)
    as (-> & _ & _ & Hstop & Hres & _ & _ & Hpush & _ & Hc & _ & Ha & Hrow
        & Hp1 & Hp0 & Hrep).
  assert (calls Compute (trace q) = []) as HC
    by (apply Hc; rewrite Hcalls; congruence).
  assert (calls Aggregate (trace q) = []) as HA
    by (apply Ha; rewrite HC; congruence).
  assert (pushed (trace q) = []) as HP.
  { rewrite Hpush, HA. rewrite bool_decide_eq_false_2 by done.
    by rewrite andb_false_r. }
  split_and!; try done.
  - by rewrite Hres, HP, app_nil_r.
  - destruct (calls_raisers BeginLogging set_id e (trace q)) as (d & Hd & Hin).
    { rewrite Hcalls. apply list_elem_of_here. }
    destruct d; try done. by apply Hrep.
  - intros x Hx. destruct Hstop as [[e'|] Hstop].
    + rewrite Hp0 in Hx by (rewrite Hstop; congruence). by apply elem_of_nil in Hx.
    + rewrite (Hp1 Hstop), Hrow in Hx by (rewrite HA; congruence).
      by apply list_elem_of_singleton in Hx.
  - intros Hstop'. rewrite (Hp1 Hstop'), Hrow; [done|]. rewrite HA. congruence.
Qed.

Lemma begin_logging_failure_fails_task_witness :
  result (maybe_begin_logging begin_fails "a" tt) = Raises "boom"
  ∧ calls Compute (trace (process_task begin_fails true "a" (fresh tt [])).1) = []
  ∧ calls StopLogging (trace (process_task begin_fails true "a" (fresh tt [])).1)
    = [("a", None)]
  ∧ persisted (trace (process_task begin_fails true "a" (fresh tt [])).1)
    = [("a", "")].
Proof.
  split; [reflexivity|].
  destruct (begin_logging_failure_fails_task begin_fails true "a" tt [] "boom"
              eq_refl _ _ (surjective_pairing _))
    as (_ & Hcompute & _ & _ & _ & _ & _ & _ & Hsaved & _).
  split_and!; [exact Hcompute|reflexivity|].
  apply Hsaved. reflexivity.
Defined.

(** C5 as it is worded fails: here the begin-logging hook raises for the
    one queued set ID; the worker takes the ID and runs the loop body, and
    the compute step is never invoked. *)
Lemma begin_logging_failure_skips_compute :
  ∃ p, exec begin_fails fifo_get [0; 0; 0; 0; 0]
         (spawn (__init__ (Some 1%Z)) tt ["a"] None) = Some p
    ∧ all_joined p = true
    ∧ dequeued (log p) = ["a"]
    ∧ calls BeginLogging (log p) = [("a", Some "boom")]
    ∧ calls Compute (log p) = [].
Proof. eexists. split; [vm_compute; reflexivity|]. by vm_compute. Qed.

(** C6, as the code has it.  None of the best-effort steps re-raises: the
    loop body always returns, and every exception of a hook is reported, by
    the handler of the [try] block for begin-logging and by the one handler
    of the [finally] block for stop-logging and the local save.  A row that
    was pushed stays on the result queue whatever the later steps do.  But
    stop-logging and the local save share one [try]: when stop-logging
    raises, the local save is not invoked for that set ID. *)
Theorem best_effort_failures_caught {H R} (hooks : @Hooks H R)
    (save_all : bool) (set_id : SetID) (h : H) (results : list Row) :
  ∀ q o, process_task hooks save_all set_id (fresh h results) = (q, o) →
  o = Returns tt
  ∧ (∀ c e, (c, e) ∈ raisers (trace q) → Print (report set_id c e) ∈ trace q)
  ∧ results_q q = results ++ pushed (trace q)
  ∧ (save_all = true → calls Aggregate (trace q) = [(set_id, None)] →
       pushed (trace q) = [res_string q])
  ∧ (∀ e, calls StopLogging (trace q) = [(set_id, Some e)] →
       persisted (trace q) = []).
Proof.
  intros q o Hq.
  destruct (process_task_spec hooks _ _ _ _ _ _ Hq _ eq_refl)
    as (-> & _ & _ & _ & Hres & _ & _ & Hpush & _ & _ & _ & _ & _ & _ & Hp0 & Hrep).
  split_and!; try done.
  - intros -> HA. rewrite Hpush, HA. by rewrite bool_decide_eq_true_2.
  - intros e Hstop. apply Hp0. rewrite Hstop. congruence.
Qed.

Lemma best_effort_failures_caught_witness :
  calls StopLogging (trace (process_task stop_fails true "a" (fresh tt [])).1)
  = [("a", Some "boom")]
  ∧ persisted (trace (process_task stop_fails true "a" (fresh tt [])).1) = []
  ∧ pushed (trace (process_task stop_fails true "a" (fresh tt [])).1) = ["a,foo"].
Proof.
  pose proof (best_effort_failures_caught stop_fails
                true "a" tt [] _ _ (surjective_pairing _))
    as (_ & _ & _ & Hpush & Hpersist).
  split_and!.
  - reflexivity.
  - apply (Hpersist "boom"). reflexivity.
  - apply Hpush; reflexivity.
Defined.

(** C6 as it is worded fails: the stop-logging hook raises after compute and
    aggregate have produced the row ["a,foo"]; the exception is caught, but
    the local save is not invoked, so the computed row never reaches it. *)
Lemma stop_logging_failure_skips_local_persist :
  calls Aggregate (trace (process_task stop_fails false "a" (fresh tt [])).1)
  = [("a", None)]
  ∧ res_string (process_task stop_fails false "a" (fresh tt [])).1 = "a,foo"
  ∧ calls StopLogging (trace (process_task stop_fails false "a" (fresh tt [])).1)
    = [("a", Some "boom")]
  ∧ persisted (trace (process_task stop_fails false "a" (fresh tt [])).1) = [].
Proof. by vm_compute. Qed.

(** C7, as the code has it.  Stop-logging is called exactly once in every
    run of the loop body, whether the [try] block returned or raised.  The
    local save follows it in the same [try]: it is invoked exactly once when
    stop-logging returns, and not at all when stop-logging raises.  The row
    it gets is [res_string], which is still the empty string unless the
    aggregate step returned. *)
Theorem stop_logging_on_every_path {H R} (hooks : @Hooks H R)
    (save_all : bool) (set_id : SetID) (h : H) (results : list Row) :
  ∀ q o, process_task hooks save_all set_id (fresh h results) = (q, o) →
  (∃ exc, calls StopLogging (trace q) = [(set_id, exc)])
  ∧ (calls StopLogging (trace q) = [(set_id, None)] →
       persisted (trace q) = [(set_id, res_string q)])
  ∧ (calls StopLogging (trace q) ≠ [(set_id, None)] → persisted (trace q) = [])
  ∧ (calls Aggregate (trace q) ≠ [(set_id, None)] → res_string q = "").
Proof.
  intros q o Hq.
  destruct (process_task_spec hooks _ _ _ _ _ _ Hq _ eq_refl)
    as (_ & _ & _ & Hstop & _ & _ & _ & _ & _ & _ & _ & _ & Hrow & Hp1 & Hp0 & _).
  done.
Qed.

Lemma stop_logging_on_every_path_witness :
  calls StopLogging (trace (process_task compute_fails false "a" (fresh tt [])).1)
  = [("a", None)]
  ∧ persisted (trace (process_task compute_fails false "a" (fresh tt [])).1)
    = [("a", "")].
Proof.
  pose proof (stop_logging_on_every_path compute_fails
                false "a" tt [] _ _ (surjective_pairing _))
    as (_ & Hp1 & _ & Hrow).
  split; [reflexivity|].
  rewrite Hp1 by reflexivity. rewrite Hrow; [reflexivity|].
  vm_compute. congruence.
Defined.

(** C7 as it is worded fails: compute raises and then stop-logging raises
    too; the worker takes the set ID and finishes its loop, and the local
    save has not been invoked for that set ID, not even with the empty
    row. *)
Lemma failed_task_without_local_persist :
  ∃ p, exec compute_and_stop_fail fifo_get [0; 0; 0; 0; 0]
         (spawn (__init__ (Some 1%Z)) tt ["a"] None) = Some p
    ∧ all_joined p = true
    ∧ dequeued (log p) = ["a"]
    ∧ calls Compute (log p) = [("a", Some "boom")]
    ∧ calls StopLogging (log p) = [("a", Some "boom")]
    ∧ persisted (log p) = [].
Proof. eexists. split; [vm_compute; reflexivity|]. by vm_compute. Qed.

(** * The worker loop *)

(** C9.  When [get()] raises in a worker that has found the queue non-empty,
    the worker prints the error and leaves its loop: it has returned from
    [process_wrapper] (it was not killed by the exception, so the join of
    the parent returns for it and nothing reaches the caller), the queue and
    the other workers are untouched, and the worker never moves again, so
    there is no retry. *)
Theorem queue_failure_ends_worker {H R} (hooks : @Hooks H R)
    (queue_get : list SetID → get_result) (i : nat) (p : @pool H)
    (w : @worker H) (e : exn) :
  workers p !! i = Some w →
  at_ w = Get →
  queue_get (set_ids_ (shared p)) = GetRaises e →
  ∃ p', process_wrapper hooks queue_get i p = Some p'
    ∧ log p' = log p ++ [Print ("Error retrieving set ID from queue: " +:+ e)]
    ∧ shared p' = shared p
    ∧ workers p' = <[i := {| at_ := Exited; own := own w |}]> (workers p)
    ∧ (ended <$> workers p' !! i) = Some true
    ∧ (alive p → alive p')
    ∧ ∀ sched, exec hooks queue_get (i :: sched) p' = None.
Proof.
  intros Hw Hat Hget.
  assert (i < length (workers p)) as Hi by (by eapply lookup_lt_Some).
  pose proof (step_at_get hooks queue_get i p w Hw Hat) as Hstep.
  rewrite Hget in Hstep.
  eexists. split; [exact Hstep|].
  split_and!; try done.
  - by rewrite move_lookup.
  - intros Halive. by eapply step_alive.
  - intros sched. simpl.
    by rewrite (step_at_end hooks queue_get i _ _ (move_lookup _ _ _ _ _ Hi)).
Qed.

Lemma queue_failure_ends_worker_witness :
  ∃ p', process_wrapper Base.hooks (broken_get "pipe closed") 0
          {| shared := with_set_ids_ ["a"] (__init__ None);
             workers := [ {| at_ := Get; own := tt |} ];
             log := [] |} = Some p'
    ∧ (at_ <$> workers p') = [Exited]
    ∧ set_ids_ (shared p') = ["a"]
    ∧ log p' = [Print "Error retrieving set ID from queue: pipe closed"].
Proof.
  destruct (queue_failure_ends_worker Base.hooks (broken_get "pipe closed") 0
              {| shared := with_set_ids_ ["a"] (__init__ None);
                 workers := [ {| at_ := Get; own := tt |} ];
                 log := [] |}
              {| at_ := Get; own := tt |} "pipe closed"
              eq_refl eq_refl eq_refl)
    as (p' & Hstep & Hlog & Hshared & Hworkers & _).
  exists p'. split; [exact Hstep|]. rewrite Hworkers, Hshared, Hlog. done.
Defined.

(** C4.  In every state a run of the pool can reach, no worker has been
    killed by an exception; a worker that holds a set ID finishes the loop
    body whatever its hooks do, every exception of a hook is reported on
    standard output, the worker is back at the test of its loop, and when
    set IDs are still queued it goes on to take the next one.  What
    [process_ids] hands to its caller is the outcome of [maybe_save_results]:
    the tasks have no part in it. *)
Theorem task_failure_contained {H R} (hooks : @Hooks H R)
    (sched : list nat) (self : IParallelSolver) (h : H)
    (set_ids : list SetID) (results_file : option string)
    (p : @pool H) (i : nat) (w : @worker H) (set_id : SetID) :
  exec hooks fifo_get sched (spawn self h set_ids results_file) = Some p →
  workers p !! i = Some w →
  at_ w = Task set_id →
  alive p
  ∧ (∃ p' evs, process_wrapper hooks fifo_get i p = Some p'
       ∧ alive p'
       ∧ (at_ <$> workers p' !! i) = Some LoopTest
       ∧ log p' = log p ++ evs
       ∧ processed evs = [set_id]
       ∧ (∀ c e, (c, e) ∈ raisers evs → Print (report set_id c e) ∈ evs)
       ∧ (∀ next rest, set_ids_ (shared p') = next :: rest →
            ∃ p'', exec hooks fifo_get [i; i] p' = Some p''
              ∧ (at_ <$> workers p'' !! i) = Some (Task next)))
  ∧ (∀ sched' fs world,
       process_ids hooks fifo_get sched' self h fs set_ids results_file = Some world →
       ∃ p', exec hooks fifo_get sched' (spawn self h set_ids results_file) = Some p'
         ∧ alive p'
         ∧ ending world
           = saved_outcome (maybe_save_results hooks results_file (shared p') h fs)).
Proof.
  intros Hrun Hw Hat.
  assert (alive p) as Halive by (eapply exec_alive; [apply spawn_alive|done]).
  split_and!; [done| |].
  - destruct (process_task hooks (save_all_results_ (shared p)) set_id
               (fresh (own w) (results_ (shared p)))) as [q o] eqn:Hq.
    destruct (process_task_spec hooks _ _ _ _ _ _ Hq _ eq_refl)
      as (-> & _ & Hproc & _ & _ & _ & _ & _ & _ & _ & _ & _ & _ & _ & _ & Hrep).
    assert (i < length (workers p)) as Hi by (by eapply lookup_lt_Some).
    pose proof (step_at_task hooks fifo_get i p w set_id q _ Hw Hat Hq) as Hstep.
    eexists _, (trace q). split; [exact Hstep|].
    split_and!; try done.
    + by eapply step_alive.
    + by rewrite move_lookup.
    + intros next rest Hnext.
      set (p1 := move i {| at_ := LoopTest; own := attrs q |}
                   (with_results_ (results_q q) (shared p)) (trace q) p) in *.
      assert (i < length (workers p1)) as Hi1 by (simpl; by rewrite length_insert).
      pose proof (step_at_test hooks fifo_get i p1 _ (move_lookup _ _ _ _ _ Hi) eq_refl)
        as Hstep1.
      rewrite Hnext in Hstep1. simpl in Hstep1.
      set (p2 := move i {| at_ := Get; own := attrs q |} (shared p1) [] p1) in *.
      pose proof (step_at_get hooks fifo_get i p2 _ (move_lookup _ _ _ _ _ Hi1) eq_refl)
        as Hstep2.
      change (set_ids_ (shared p2)) with (set_ids_ (shared p1)) in Hstep2.
      rewrite Hnext in Hstep2. simpl in Hstep2.
      eexists. split.
      * rewrite (exec_cons _ _ _ _ _ _ Hstep1), (exec_cons _ _ _ _ _ _ Hstep2).
        reflexivity.
      * rewrite move_lookup; [done|]. simpl. by rewrite length_insert.
  - intros sched' fs world Hcall. unfold process_ids in Hcall.
    destruct (exec hooks fifo_get sched' _) as [p'|] eqn:Hrun'; [|done].
    simpl in Hcall. destruct (all_joined p'); [|done]. simplify_eq/=.
    exists p'. split_and!; [done| |done].
    eapply exec_alive; [apply spawn_alive|done].
Qed.

Lemma task_failure_contained_witness :
  ∃ p p', exec compute_fails fifo_get [0; 0; 0]
            (spawn (__init__ (Some 1%Z)) tt ["a"; "b"] None) = Some p
    ∧ (at_ <$> workers p !! 0) = Some (Task "a")
    ∧ process_wrapper compute_fails fifo_get 0 p = Some p'
    ∧ (at_ <$> workers p' !! 0) = Some LoopTest
    ∧ ∃ p'', exec compute_fails fifo_get [0; 0] p' = Some p''
        ∧ (at_ <$> workers p'' !! 0) = Some (Task "b").
Proof.
  eexists.
  eassert (exec compute_fails fifo_get [0; 0; 0]
             (spawn (__init__ (Some 1%Z)) tt ["a"; "b"] None) = Some _) as Hrun
    by (vm_compute; reflexivity).
  destruct (task_failure_contained compute_fails [0; 0; 0]
              (__init__ (Some 1%Z)) tt ["a"; "b"] None _ 0
              {| at_ := Task "a"; own := tt |} "a" Hrun eq_refl eq_refl)
    as (_ & (p' & evs & Hstep & _ & Hat & _ & _ & _ & Hnext) & _).
  exists p'. split_and!; [exact Hrun|reflexivity|exact Hstep|exact Hat|].
  apply (Hnext "b" []).
  vm_compute in Hstep. by simplify_eq.
Defined.

(** * The result queue *)

(** Along a run that started with an empty result queue, the queue holds the
    rows pushed so far. *)
Lemma exec_results_from_empty {H R} (hooks : @Hooks H R)
    (queue_get : list SetID → get_result) (sched : list nat)
    (self : IParallelSolver) (h : H) (set_ids : list SetID)
    (results_file : option string) (p : @pool H) :
  results_ self = [] →
  exec hooks queue_get sched (spawn self h set_ids results_file) = Some p →
  save_all_results_ (shared p) = bool_decide (results_file ≠ None)
  ∧ results_ (shared p) = pushed (log p)
  ∧ length (pushed (log p))
    = (if bool_decide (results_file ≠ None) then succeeded (log p) else 0).
Proof.
  intros Hempty Hrun.
  pose proof (exec_fixed hooks queue_get _ _ _ Hrun) as (Hflag & _ & _).
  rewrite spawn_shared in Hflag. simpl in Hflag.
  assert (results_inv [] p) as [Hres Hlen].
  { eapply exec_results; [|exact Hrun].
    unfold results_inv. rewrite spawn_shared. simpl. rewrite Hempty.
    split; [done|]. by case_bool_decide. }
  simpl in Hres. rewrite Hflag in Hlen. done.
Qed.

(** C8.  One run of the loop body pushes a row only when the flag
    [save_all_results_] is set and the aggregate step returned, and then it
    pushes exactly that row; the aggregate step is only reached when the
    compute step has returned.  Hence along every run of [process_ids] on a
    solver whose result queue is empty, the queue holds exactly the rows
    pushed so far: none when no results file was given, and as many as there
    are tasks whose compute and aggregate steps both returned when one was
    given. *)
Theorem result_rows_count_successes {H R} (hooks : @Hooks H R)
    (queue_get : list SetID → get_result) (sched : list nat)
    (self : IParallelSolver) (h : H) (set_ids : list SetID)
    (results_file : option string) (p : @pool H) :
  results_ self = [] →
  exec hooks queue_get sched (spawn self h set_ids results_file) = Some p →
  save_all_results_ (shared p) = bool_decide (results_file ≠ None)
  ∧ results_ (shared p) = pushed (log p)
  ∧ (results_file = None → results_ (shared p) = [])
  ∧ (results_file ≠ None → length (results_ (shared p)) = succeeded (log p))
  ∧ (∀ save_all set_id h' results q o,
       process_task hooks save_all set_id (fresh h' results) = (q, o) →
       pushed (trace q)
       = (if save_all && bool_decide (calls Aggregate (trace q) = [(set_id, None)])
          then [res_string q] else [])
       ∧ (calls Aggregate (trace q) = [(set_id, None)] →
            calls Compute (trace q) = [(set_id, None)])).
Proof.
  intros Hempty Hrun.
  destruct (exec_results_from_empty hooks queue_get sched self h set_ids
              results_file p Hempty Hrun) as (Hflag & Hres & Hlen).
  split_and!; try done.
  - intros ->. rewrite bool_decide_eq_false_2 in Hlen by (intros Hn; by apply Hn).
    rewrite Hres. by apply length_zero_iff_nil.
  - intros Hfile. rewrite bool_decide_eq_true_2 in Hlen by done. by rewrite Hres.
  - intros save_all set_id h' results q o Hq.
    destruct (process_task_spec hooks _ _ _ _ _ _ Hq _ eq_refl)
      as (_ & _ & _ & _ & _ & _ & _ & Hpush & _ & _ & HC & HC0 & _).
    split; [done|]. intros HA.
    destruct (decide (calls Compute (trace q) = [(set_id, None)])) as [|Hne]; [done|].
    rewrite (HC0 Hne) in HA. done.
Qed.

Lemma result_rows_count_successes_witness :
  ∃ p, exec aggregate_fails_on_b fifo_get [0; 0; 0; 0; 0; 0; 0; 0; 0; 0; 0]
         (spawn (__init__ (Some 1%Z)) tt ["a"; "b"; "c"] (Some "out.csv")) = Some p
    ∧ all_joined p = true
    ∧ results_ (shared p) = ["a,foo"; "c,foo"]
    ∧ length (results_ (shared p)) = succeeded (log p).
Proof.
  eexists.
  eassert (exec aggregate_fails_on_b fifo_get [0; 0; 0; 0; 0; 0; 0; 0; 0; 0; 0]
             (spawn (__init__ (Some 1%Z)) tt ["a"; "b"; "c"] (Some "out.csv")) = Some _)
    as Hrun by (vm_compute; reflexivity).
  split_and!; [exact Hrun|reflexivity|reflexivity|].
  by apply (result_rows_count_successes aggregate_fails_on_b fifo_get _
              (__init__ (Some 1%Z)) tt ["a"; "b"; "c"] (Some "out.csv") _
              eq_refl Hrun).
Defined.

(** * Draining the task queue *)

(** C1 does not hold of the code.  [IParallelSolver().process_ids(["a"])]
    puts ["a"], which leaves it in the buffer of the parent until the feeder
    thread writes it to the pipe, and starts four workers.  Each worker
    prints its first message and evaluates [self.set_ids_.empty()] before
    the feeder thread has written: the test looks at the pipe, finds
    nothing, and the worker returns from [process_wrapper].  Every worker
    has ended and [process_ids] returns: ["a"] has not been taken from the
    queue, no hook has been called for it, and it is still queued when the
    call is over. *)
Theorem set_id_skipped_by_early_workers :
  ∃ s w,
    fed_exec Base.hooks fifo_get early (fed_spawn (__init__ None) tt ["a"] None)
    = Some s
    ∧ (at_ <$> workers (running s)) = [Exited; Exited; Exited; Exited]
    ∧ all_joined (running s) = true
    ∧ buffered s = ["a"]
    ∧ dequeued (log (running s)) = []
    ∧ processed (log (running s)) = []
    ∧ fed_process_ids Base.hooks fifo_get early (__init__ None) tt ∅ ["a"] None
      = Some w
    ∧ set_ids_ (solver w) = ["a"]
    ∧ hook_order (seen w) = []
    ∧ ending w = Returns tt.
Proof. eexists _, _. split_and!; vm_compute; reflexivity. Qed.

(** With a single worker nothing can empty the queue between the test and
    the [get()], and the worker always reaches the end of its loop. *)
Lemma step_solo {H R} (hooks : @Hooks H R) i (p p' : @pool H) :
  solo p → process_wrapper hooks fifo_get i p = Some p' → solo p'.
Proof.
  intros (w0 & Hws & Hget0 & Hlive) Hstep.
  step_inv Hstep; rewrite Hws in *;
    destruct i as [|i]; simplify_eq/=;
    unfold solo; simpl; rewrite Hws; simpl;
    eexists; (split; [reflexivity|]); simpl; try done.
  split; [|by destruct (queue_empty _)].
  destruct (set_ids_ (shared p)); simpl; [done|]. done.
Qed.

Lemma single_worker_joins {H R} (hooks : @Hooks H R) (sched : list nat)
    (self : IParallelSolver) (h : H) (set_ids : list SetID)
    (results_file : option string) (p : @pool H) :
  num_workers self = 1%Z →
  exec hooks fifo_get sched (spawn self h set_ids results_file) = Some p →
  ∃ sched' p', exec hooks fifo_get sched' p = Some p' ∧ stuck hooks p'
  ∧ ∀ sched' p', exec hooks fifo_get sched' p = Some p' → stuck hooks p' →
      all_joined p' = true.
Proof.
  intros Hone Hrun.
  destruct (exec_to_stuck hooks p) as (sched1 & p1 & Hrun1 & Hstuck1).
  exists sched1, p1. split_and!; [done..|].
  intros sched' p' Hrun' Hstuck.
  assert (solo p') as (w & Hws & Hget & Hlive).
  { eapply exec_invariant; [apply step_solo| |exact Hrun'].
    eapply exec_invariant; [apply step_solo| |exact Hrun].
    unfold solo, spawn. rewrite Hone. simpl. eexists. split; [reflexivity|done]. }
  destruct (stuck_worker hooks p' 0 w Hstuck) as [Hat|[[e Hat]|[Hat Hq]]].
  - by rewrite Hws.
  - unfold all_joined, ended. rewrite Hws. simpl. by rewrite Hat.
  - by destruct (Hlive e).
  - by destruct (Hget Hat).
Qed.

(** C3 does not hold of the code.  [IParallelSolver().process_ids(["a"])]
    starts four workers.  Workers 0 and 1 both find the queue non-empty;
    worker 0 takes ["a"], handles it and leaves its loop, workers 2 and 3
    find the queue empty and leave.  Worker 1 is then inside [get()] on an
    empty queue that nobody will fill: no worker can move, worker 1 has not
    ended, and whatever the schedule does next, the joins of [process_ids]
    do not return. *)
Theorem blocked_get_never_joins :
  ∃ p, exec Base.hooks fifo_get race (spawn (__init__ None) tt ["a"] None) = Some p
    ∧ (at_ <$> workers p) = [Exited; Get; Exited; Exited]
    ∧ set_ids_ (shared p) = []
    ∧ processed (log p) = ["a"]
    ∧ stuck Base.hooks p
    ∧ all_joined p = false
    ∧ ∀ sched fs,
        process_ids Base.hooks fifo_get (race ++ sched) (__init__ None) tt fs ["a"] None
        = None.
Proof.
  eexists.
  eassert (exec Base.hooks fifo_get race (spawn (__init__ None) tt ["a"] None)
           = Some _) as Hrun
    by (vm_compute; reflexivity).
  match type of Hrun with _ = Some ?p0 =>
    assert (stuck Base.hooks p0) as Hstuck
      by (intros [|[|[|[|i]]]]; reflexivity)
  end.
  split_and!; [exact Hrun|reflexivity..|exact Hstuck|reflexivity|].
  intros sched fs. unfold process_ids.
  rewrite exec_app, Hrun. simpl.
  destruct sched as [|i sched]; [reflexivity|].
  simpl. by rewrite (Hstuck i).
Qed.

(** * Saving the results *)




(** * A new solver *)

(** C10.  [IParallelSolver()] has four workers, two empty queues and the
    flag [save_all_results_] unset.  The flag is then still unset after any
    number of calls of [process_ids] without a results file, and at every
    moment of such a call; a call with a results file sets it. *)
Theorem new_solver_defaults :
  __init__ None
  = {| num_workers := 4; results_ := []; set_ids_ := [];
       save_all_results_ := false |}
  ∧ (∀ queue_get cs fs w,
       Forall (λ c, c.2 = None) cs →
       session Base.hooks queue_get cs (outset (__init__ None) tt fs) = Some w →
       save_all_results_ (solver w) = false)
  ∧ (∀ queue_get sched self set_ids results_file p,
       exec Base.hooks queue_get sched (spawn self tt set_ids results_file) = Some p →
       save_all_results_ (shared p) = bool_decide (results_file ≠ None))
  ∧ (∀ queue_get sched self fs set_ids results_file w,
       process_ids Base.hooks queue_get sched self tt fs set_ids results_file = Some w →
       save_all_results_ (solver w) = bool_decide (results_file ≠ None)).
Proof.
  assert (∀ queue_get sched self set_ids results_file (p : @pool unit),
            exec Base.hooks queue_get sched (spawn self tt set_ids results_file) = Some p →
            save_all_results_ (shared p) = bool_decide (results_file ≠ None)) as Hrun.
  { intros queue_get sched self set_ids results_file p Hp.
    pose proof (exec_fixed Base.hooks queue_get _ _ _ Hp) as (Hflag & _ & _).
    by rewrite spawn_shared in Hflag. }
  assert (∀ queue_get sched self fs set_ids results_file (w : @world unit),
            process_ids Base.hooks queue_get sched self tt fs set_ids results_file = Some w →
            save_all_results_ (solver w) = bool_decide (results_file ≠ None)) as Hcall.
  { intros queue_get sched self fs set_ids results_file w Hw.
    unfold process_ids in Hw.
    destruct (exec _ queue_get sched _) as [p|] eqn:Hp; [|done].
    simpl in Hw. destruct (all_joined p); [|done].
    injection Hw as <-. simpl. by eapply Hrun. }
  split_and!; [reflexivity| |by eauto|by eauto].
  intros queue_get cs fs w Hnone.
  generalize (eq_refl : save_all_results_ (solver (outset (__init__ None) tt fs)) = false).
  generalize (outset (__init__ None) tt fs) as w0.
  induction Hnone as [|[[sched set_ids] results_file] cs Hc _ IH]; intros w0 Hw0 Hs.
  - by simplify_eq/=.
  - simpl in Hc. subst results_file. simpl in Hs.
    destruct (process_ids _ _ _ _ _ _ _ _) as [w1|] eqn:Hw1; [|done].
    simpl in Hs. destruct (parent w0).
    apply Hcall in Hw1. simpl in Hw1.
    destruct (ending w1); [by apply (IH w1)|by simplify_eq].
Qed.

Lemma new_solver_defaults_witness :
  ∃ w, session Base.hooks fifo_get
         [([0; 0; 0; 0; 0; 1; 1; 2; 2; 3; 3], ["a"], None);
          ([0; 0; 1; 1; 2; 2; 3; 3], [], None)]
         (outset (__init__ None) tt ∅) = Some w
    ∧ save_all_results_ (solver w) = false.
Proof.
  eexists.
  eassert (session Base.hooks fifo_get
             [([0; 0; 0; 0; 0; 1; 1; 2; 2; 3; 3], ["a"], None);
              ([0; 0; 1; 1; 2; 2; 3; 3], [], None)]
             (outset (__init__ None) tt ∅) = Some _) as Hs
    by (vm_compute; reflexivity).
  split; [exact Hs|].
  destruct new_solver_defaults as (_ & Hkeep & _).
  eapply Hkeep; [|exact Hs]. by repeat constructor.
Defined.

(** * Further properties of the loop body *)

Lemma hook_order_skel l : hook_order l = hook_order (skel l).
Proof. by apply omap_skel. Qed.

Lemma hook_order_app l k : hook_order (l ++ k) = hook_order l ++ hook_order k.
Proof. apply omap_app. Qed.

(** Each hook is called at most once in a run of the loop body, and for the
    set ID in hand. *)
Lemma process_task_call_ids {H R} (hooks : @Hooks H R) save_all set_id h results q o c :
  process_task hooks save_all set_id (fresh h results) = (q, o) →
  (calls c (trace q)).*1 = [] ∨ (calls c (trace q)).*1 = [set_id].
Proof.
  unfold fresh. task_cases hooks; intros [= <- <-]; simpl;
    rewrite calls_skel;
    match goal with
    | |- context [skel ?t] =>
        let Hs := fresh "Hs" in
        eassert (skel t = _) as Hs by (unfold skel; trace_simpl; reflexivity);
        rewrite Hs
    end;
    destruct c; simpl; auto.
Qed.

(** X1.  In every run of the loop body the hooks are called in one fixed
    order: begin-logging first, then compute and aggregate as far as the
    [try] block gets, then stop-logging, then the local save.  Stop-logging
    never precedes begin-logging and nothing follows the local save. *)
Theorem hooks_called_in_order {H R} (hooks : @Hooks H R)
    (save_all : bool) (set_id : SetID) (h : H) (results : list Row) :
  ∃ tried cleaned,
    hook_order (trace (process_task hooks save_all set_id (fresh h results)).1)
    = tried ++ cleaned
    ∧ tried ∈ [[BeginLogging]; [BeginLogging; Compute];
               [BeginLogging; Compute; Aggregate]]
    ∧ cleaned ∈ [[StopLogging]; [StopLogging; LocalPersist ""]].
Proof.
  unfold fresh. task_cases hooks; unfold hook_order; trace_simpl;
    first
      [ exists [BeginLogging], [StopLogging]; split; [reflexivity|]
      | exists [BeginLogging], [StopLogging; LocalPersist ""]; split; [reflexivity|]
      | exists [BeginLogging; Compute], [StopLogging]; split; [reflexivity|]
      | exists [BeginLogging; Compute], [StopLogging; LocalPersist ""];
        split; [reflexivity|]
      | exists [BeginLogging; Compute; Aggregate], [StopLogging];
        split; [reflexivity|]
      | exists [BeginLogging; Compute; Aggregate], [StopLogging; LocalPersist ""];
        split; [reflexivity|] ];
    split; find_elem.
Qed.

(** * Further properties of runs *)

Section Calls.
Context {H R : Type}.
Variable hooks : @Hooks H R.
Variable queue_get : list SetID → get_result.
Implicit Types (p : @pool H) (i : nat) (sched : list nat).

(** The calls of any hook are made for set IDs that entered the loop body,
    in the order they entered, at most one call per entry; stop-logging is
    called for every entry. *)
Lemma step_calls i p p' :
  (∀ c, (calls c (log p)).*1 `sublist_of` processed (log p))
  ∧ (calls StopLogging (log p)).*1 = processed (log p) →
  process_wrapper hooks queue_get i p = Some p' →
  (∀ c, (calls c (log p')).*1 `sublist_of` processed (log p'))
  ∧ (calls StopLogging (log p')).*1 = processed (log p').
Proof.
  intros [Hsub Hstop] Hstep.
  step_inv Hstep; simpl;
    rewrite ?processed_app; simpl; rewrite ?app_nil_r;
    try done;
    try (split; [intros c; rewrite calls_app; destruct c; simpl;
                 rewrite ?app_nil_r; apply Hsub
                | rewrite calls_app; simpl; by rewrite app_nil_r]).
  pose proof Hspec as (_ & _ & Hproc & [exc Hstop'] & _).
  rewrite Hproc. split.
  - intros c. rewrite calls_app, fmap_app. apply sublist_app; [done|].
    destruct (process_task_call_ids hooks _ _ _ _ _ _ c Hq) as [->| ->];
      [apply sublist_nil_l|done].
  - by rewrite calls_app, fmap_app, Hstop, Hstop'.
Qed.

Lemma exec_calls sched (self : IParallelSolver) (h : H) set_ids results_file p :
  exec hooks queue_get sched (spawn self h set_ids results_file) = Some p →
  (∀ c, (calls c (log p)).*1 `sublist_of` processed (log p))
  ∧ (calls StopLogging (log p)).*1 = processed (log p).
Proof.
  apply (exec_invariant hooks queue_get
           (λ p, (∀ c, (calls c (log p)).*1 `sublist_of` processed (log p))
                 ∧ (calls StopLogging (log p)).*1 = processed (log p))).
  - intros i p1 p2. apply step_calls.
  - split; [|done]. intros c. by destruct c.
Qed.

(** A set ID that entered the loop body, or that a worker holds, was taken
    from the queue: this holds whatever the queue does. *)
Lemma step_taken i p p' :
  dequeued (log p) ≡ₚ processed (log p) ++ inflight (workers p) →
  process_wrapper hooks queue_get i p = Some p' →
  dequeued (log p') ≡ₚ processed (log p') ++ inflight (workers p').
Proof.
  intros Hperm Hstep.
  step_inv Hstep; simpl;
    match goal with
    | Hw : workers p !! i = Some ?w |- context [<[i := ?w']> _] =>
        pose proof (inflight_insert (workers p) i w w' Hw) as Hfl;
        unfold holding in Hfl; rewrite Hat in Hfl; simpl in Hfl
    end;
    rewrite ?dequeued_app, ?processed_app; simpl; rewrite ?app_nil_r.
  - by rewrite Hfl.
  - destruct (queue_empty _); simpl in *; by rewrite Hfl.
  - rewrite Hfl, Hperm. solve_Permutation.
  - by rewrite Hfl.
  - destruct Hspec as (_ & -> & -> & _). rewrite app_nil_r.
    rewrite Hperm, <- Hfl. solve_Permutation.
Qed.

End Calls.

(** X2.  Logging is balanced along every run, whatever the hooks and the
    task queue do: whenever no worker is in the middle of a loop body (a
    loop body is one step of a run), stop-logging has been called for the
    same set IDs as begin-logging, each as many times.  Nothing is said of
    the order, which depends on how the loop bodies of different workers
    overlap. *)
Theorem logging_calls_balanced {H R} (hooks : @Hooks H R)
    (queue_get : list SetID → get_result) (sched : list nat)
    (self : IParallelSolver) (h : H) (set_ids : list SetID)
    (results_file : option string) (p : @pool H) :
  exec hooks queue_get sched (spawn self h set_ids results_file) = Some p →
  (calls StopLogging (log p)).*1 ≡ₚ (calls BeginLogging (log p)).*1
  ∧ length (calls StopLogging (log p)) = length (calls BeginLogging (log p)).
Proof.
  intros Hrun. apply (exec_calls hooks queue_get) in Hrun as [_ Heq].
  unfold processed in Heq. split; [by rewrite Heq|].
  by rewrite <- (length_fmap fst (calls StopLogging (log p))), Heq, length_fmap.
Qed.

Lemma logging_calls_balanced_witness :
  ∃ p, exec compute_and_stop_fail fifo_get [0; 0; 0; 0; 0; 0; 0; 0]
         (spawn (__init__ (Some 1%Z)) tt ["a"; "b"] None) = Some p
    ∧ (calls BeginLogging (log p)).*1 = ["a"; "b"]
    ∧ (calls StopLogging (log p)).*1 ≡ₚ ["a"; "b"].
Proof.
  eexists.
  eassert (exec compute_and_stop_fail fifo_get [0; 0; 0; 0; 0; 0; 0; 0]
             (spawn (__init__ (Some 1%Z)) tt ["a"; "b"] None) = Some _) as Hrun
    by (vm_compute; reflexivity).
  split_and!; [exact Hrun|reflexivity|].
  apply (logging_calls_balanced _ _ _ _ _ _ _ _ Hrun).
Defined.

(** X3.  When [process_ids] is given distinct set IDs on an empty task
    queue, no hook is called twice for the same set ID, and no hook is
    called for a set ID that was not given; in particular the processing
    function runs at most once per set ID. *)
Theorem hooks_called_once_per_set_id {H R} (hooks : @Hooks H R)
    (sched : list nat) (self : IParallelSolver) (h : H)
    (set_ids : list SetID) (results_file : option string) (p : @pool H)
    (c : hook_call) :
  NoDup set_ids →
  set_ids_ self = [] →
  exec hooks fifo_get sched (spawn self h set_ids results_file) = Some p →
  NoDup (calls c (log p)).*1
  ∧ (∀ set_id, set_id ∈ (calls c (log p)).*1 → set_id ∈ set_ids)
  ∧ length (calls c (log p)) ≤ length set_ids.
Proof.
  intros Hnodup Hempty Hrun.
  pose proof (exec_drain hooks set_ids _ _ _ (spawn_drain self h _ results_file Hempty) Hrun)
    as (Hq & Hperm & _).
  pose proof (exec_calls hooks fifo_get _ _ _ _ _ _ Hrun) as [Hsub _].
  assert ((calls c (log p)).*1 ⊆+ set_ids) as Hsubm.
  { transitivity (processed (log p)); [apply sublist_submseteq, Hsub|].
    rewrite <- Hq, Hperm, <- app_assoc.
    by apply submseteq_inserts_r. }
  split_and!.
  - apply (sublist_NoDup _ (processed (log p))); [|apply Hsub].
    rewrite <- Hq in Hnodup. apply NoDup_app in Hnodup as (Hnd & _ & _).
    rewrite Hperm in Hnd. by apply NoDup_app in Hnd as (? & _ & _).
  - intros set_id Hin. eapply elem_of_submseteq; done.
  - apply submseteq_length in Hsubm. by rewrite length_fmap in Hsubm.
Qed.

Lemma hooks_called_once_per_set_id_witness :
  ∃ p, exec Base.hooks fifo_get [0; 1; 0; 1; 0; 1; 0; 1; 0; 0; 1; 0; 0]
         (spawn (__init__ (Some 2%Z)) tt ["a"; "b"; "c"] None) = Some p
    ∧ NoDup (calls Compute (log p)).*1.
Proof.
  eexists.
  eassert (exec Base.hooks fifo_get [0; 1; 0; 1; 0; 1; 0; 1; 0; 0; 1; 0; 0]
             (spawn (__init__ (Some 2%Z)) tt ["a"; "b"; "c"] None) = Some _)
    as Hrun by (vm_compute; reflexivity).
  split; [exact Hrun|].
  assert (NoDup ["a"; "b"; "c"]) as Hnodup by compute_done.
  apply (hooks_called_once_per_set_id Base.hooks _ (__init__ (Some 2%Z)) tt
           ["a"; "b"; "c"] None _ Compute Hnodup eq_refl Hrun).
Defined.

(** ** Runs of a fed pool *)

Section FedRuns.
Context {H R : Type}.
Variable hooks : @Hooks H R.
Variable queue_get : list SetID → get_result.
Implicit Types (s : @fed H) (p : @pool H) (acts : list action).

Lemma fed_exec_app acts1 acts2 s :
  fed_exec hooks queue_get (acts1 ++ acts2) s
  = fed_exec hooks queue_get acts1 s ≫= fed_exec hooks queue_get acts2.
Proof.
  revert s. induction acts1 as [|a acts1 IH]; intros s; simpl; [done|].
  destruct (act hooks queue_get a s) as [s'|]; simpl; [apply IH | done].
Qed.

(** The two kinds of action. *)
Lemma act_cases a s s' :
  act hooks queue_get a s = Some s' →
  (∃ set_id, a = Feed ∧ buffered s = set_id :: buffered s'
             ∧ running s' = feed set_id (running s))
  ∨ (∃ i, a = Move i ∧ buffered s' = buffered s
          ∧ process_wrapper hooks queue_get i (running s) = Some (running s')).
Proof.
  destruct a as [|i]; intros Hact; simpl in Hact.
  - left. destruct (buffered s) as [|set_id rest] eqn:Hbuf; [done|].
    simplify_eq/=. by exists set_id.
  - right.
    destruct (process_wrapper hooks queue_get i (running s)) as [p'|] eqn:Hmove;
      [|done].
    simplify_eq/=. by exists i.
Qed.

(** A property kept by every action holds along every run. *)
Lemma fed_exec_invariant (P : @fed H → Prop) :
  (∀ a s s', P s → act hooks queue_get a s = Some s' → P s') →
  ∀ acts s s', P s → fed_exec hooks queue_get acts s = Some s' → P s'.
Proof.
  intros Hact acts. induction acts as [|a acts IH]; intros s s' HP Hrun.
  - by simplify_eq/=.
  - simpl in Hrun. destruct (act hooks queue_get a s) as [s1|] eqn:Hs1; [|done].
    simpl in Hrun. eauto.
Qed.

(** A property of the running pool that every step of a worker keeps, and
    that does not depend on what is in the pipe, holds along every run. *)
Lemma fed_exec_pool_invariant (P : @pool H → Prop) :
  (∀ i p p', P p → process_wrapper hooks queue_get i p = Some p' → P p') →
  (∀ set_id p, P p → P (feed set_id p)) →
  ∀ acts s s', P (running s) → fed_exec hooks queue_get acts s = Some s' →
    P (running s').
Proof.
  intros Hstep Hfeed.
  apply (fed_exec_invariant (λ s, P (running s))).
  intros a s s' HP [(set_id & _ & _ & ->)|(i & _ & _ & Hmove)]%act_cases; eauto.
Qed.

(** When the feeder thread has written every set ID before the first worker
    moves, the fed pool is the pool that [spawn] gives. *)
Lemma feed_all (n : nat) p (set_ids : list SetID) :
  n = length set_ids →
  fed_exec hooks queue_get (replicate n Feed) {| running := p; buffered := set_ids |}
  = Some {| running :=
              {| shared := foldl (λ (q : IParallelSolver) set_id,
                                    with_set_ids_ (queue_put set_id (set_ids_ q)) q)
                             (shared p) set_ids;
                 workers := workers p; log := log p |};
            buffered := [] |}.
Proof.
  intros ->. revert p. induction set_ids as [|x l IH]; intros p; simpl.
  - by destruct p.
  - by rewrite IH.
Qed.

Lemma exec_as_fed_exec (sched : list nat) s :
  fed_exec hooks queue_get (Move <$> sched) s
  = (λ p, {| running := p; buffered := buffered s |})
      <$> exec hooks queue_get sched (running s).
Proof.
  revert s. induction sched as [|i sched IH]; intros s; simpl.
  - by destruct s.
  - destruct (process_wrapper hooks queue_get i (running s)) as [p'|]; simpl; [|done].
    by rewrite IH.
Qed.

Lemma fed_spawn_then_feed (self : IParallelSolver) (h : H) (set_ids : list SetID)
    (results_file : option string) (sched : list nat) :
  fed_exec hooks queue_get (replicate (length set_ids) Feed ++ (Move <$> sched))
    (fed_spawn self h set_ids results_file)
  = (λ p, {| running := p; buffered := [] |})
      <$> exec hooks queue_get sched (spawn self h set_ids results_file).
Proof.
  rewrite fed_exec_app. unfold fed_spawn. rewrite feed_all by done. simpl.
  by rewrite exec_as_fed_exec.
Qed.

End FedRuns.

Section FedFifo.
Context {H R : Type}.
Variable hooks : @Hooks H R.
Implicit Types (s : @fed H) (p : @pool H) (acts : list action).

(** A step of a worker takes the oldest item of the pipe or leaves the pipe
    as it is. *)
Lemma step_fifo_order i p p' :
  process_wrapper hooks fifo_get i p = Some p' →
  dequeued (log p') ++ set_ids_ (shared p') = dequeued (log p) ++ set_ids_ (shared p).
Proof.
  intros Hstep.
  step_inv Hstep; simpl; rewrite ?dequeued_app; simpl; rewrite ?app_nil_r; try done.
  - destruct (set_ids_ (shared p)) as [|x rest'] eqn:Hrest; simplify_eq/=.
    by rewrite <- app_assoc.
  - destruct Hspec as (_ & -> & _). by rewrite app_nil_r.
Qed.

Lemma fed_exec_taken acts (self : IParallelSolver) (h : H) set_ids results_file s :
  fed_exec hooks fifo_get acts (fed_spawn self h set_ids results_file) = Some s →
  dequeued (log (running s)) ++ set_ids_ (shared (running s)) ++ buffered s
  = set_ids_ self ++ set_ids
  ∧ dequeued (log (running s))
    ≡ₚ processed (log (running s)) ++ inflight (workers (running s)).
Proof.
  apply (fed_exec_invariant hooks fifo_get
           (λ s, dequeued (log (running s)) ++ set_ids_ (shared (running s)) ++ buffered s
                 = set_ids_ self ++ set_ids
                 ∧ dequeued (log (running s))
                   ≡ₚ processed (log (running s)) ++ inflight (workers (running s)))).
  - intros a s1 s2 [Hq Hperm]
      [(set_id & _ & Hbuf & Hrun)|(i & _ & Hbuf & Hmove)]%act_cases.
    + rewrite Hrun. simpl. rewrite Hbuf in Hq. unfold queue_put.
      by rewrite <- app_assoc.
    + rewrite Hbuf. split.
      * rewrite app_assoc, (step_fifo_order _ _ _ Hmove), <- app_assoc. done.
      * by eapply step_taken.
  - simpl. split; [done|].
    rewrite inflight_nil; [done|]. by apply Forall_replicate.
Qed.

(** A single worker that stands at [get()] finds an item, also when the
    feeder thread writes further items meanwhile. *)
Lemma feed_solo set_id p :
  solo p ∧ dequeued (log p) = processed (log p) ++ inflight (workers p) →
  solo (feed set_id p)
  ∧ dequeued (log (feed set_id p))
    = processed (log (feed set_id p)) ++ inflight (workers (feed set_id p)).
Proof.
  intros [(w & Hws & Hget & Hlive) Hord]. split; [|done].
  exists w. simpl. split_and!; [done| |done].
  intros _. unfold queue_put. intros Hnil.
  by apply app_eq_nil in Hnil as [_ ?].
Qed.

End FedFifo.

(** X4.  [process_ids] does not deduplicate its input and does not clear
    the task queue first.  At every moment of a run, counting also what the
    feeder thread has not written yet, the set IDs taken from the queue
    followed by those still queued are the set IDs that were queued before
    the call followed by those given, duplicates included and in that
    order; and the set IDs taken are those that have entered the loop body
    together with those that a worker has just taken, each as many times as
    it was taken. *)
Theorem duplicates_and_leftovers_kept {H R} (hooks : @Hooks H R)
    (acts : list action) (self : IParallelSolver) (h : H)
    (set_ids : list SetID) (results_file : option string) (s : @fed H) :
  fed_exec hooks fifo_get acts (fed_spawn self h set_ids results_file) = Some s →
  dequeued (log (running s)) ++ set_ids_ (shared (running s)) ++ buffered s
  = set_ids_ self ++ set_ids
  ∧ dequeued (log (running s))
    ≡ₚ processed (log (running s)) ++ inflight (workers (running s)).
Proof. apply fed_exec_taken. Qed.

Lemma duplicates_and_leftovers_kept_witness :
  ∃ s, fed_exec Base.hooks fifo_get
         [Move 0; Move 0; Move 0; Feed; Move 0; Move 0; Move 0; Move 0; Feed;
          Move 0; Move 0; Move 0]
         (fed_spawn (with_set_ids_ ["z"] (__init__ (Some 1%Z))) tt ["a"; "a"] None)
       = Some s
    ∧ processed (log (running s)) = ["z"; "a"; "a"]
    ∧ dequeued (log (running s)) ++ set_ids_ (shared (running s)) ++ buffered s
      = ["z"; "a"; "a"].
Proof.
  eexists.
  eassert (fed_exec Base.hooks fifo_get
             [Move 0; Move 0; Move 0; Feed; Move 0; Move 0; Move 0; Move 0; Feed; Move 0; Move 0; Move 0]
             (fed_spawn (with_set_ids_ ["z"] (__init__ (Some 1%Z))) tt ["a"; "a"] None)
           = Some _) as Hrun by (vm_compute; reflexivity).
  split_and!; [exact Hrun|reflexivity|].
  apply (duplicates_and_leftovers_kept Base.hooks _
           (with_set_ids_ ["z"] (__init__ (Some 1%Z))) tt ["a"; "a"] None _ Hrun).
Defined.

(** With one worker the set IDs enter the loop body in the order in which
    they leave the queue. *)
Lemma step_solo_order {H R} (hooks : @Hooks H R) i (p p' : @pool H) :
  solo p ∧ dequeued (log p) = processed (log p) ++ inflight (workers p) →
  process_wrapper hooks fifo_get i p = Some p' →
  solo p' ∧ dequeued (log p') = processed (log p') ++ inflight (workers p').
Proof.
  intros [Hsolo Hord] Hstep.
  split; [by eapply step_solo|].
  destruct Hsolo as (w0 & Hws & _ & _).
  step_inv Hstep; rewrite Hws in *;
    destruct i as [|i]; simplify_eq/=;
    rewrite Hws; unfold inflight, holding in *; simpl in *;
    rewrite Hat in Hord; simpl in Hord;
    rewrite ?dequeued_app, ?processed_app; simpl; rewrite ?app_nil_r in *.
  - done.
  - destruct (queue_empty _); simpl; by rewrite app_nil_r.
  - by rewrite Hord.
  - done.
  - destruct Hspec as (_ & -> & -> & _). by rewrite app_nil_r.
Qed.

(** X5.  With a single worker the set IDs go through the loop body in the
    order in which they were queued: at every moment of a run those that
    have entered the loop body are an initial part of the list of the set
    IDs queued before the call followed by those given.  And the worker
    never waits inside [get()]: whenever it stands there, the pipe holds an
    item, which the call hands out. *)
Theorem single_worker_keeps_order {H R} (hooks : @Hooks H R)
    (acts : list action) (self : IParallelSolver) (h : H)
    (set_ids : list SetID) (results_file : option string) (s : @fed H) :
  num_workers self = 1%Z →
  fed_exec hooks fifo_get acts (fed_spawn self h set_ids results_file) = Some s →
  processed (log (running s)) `prefix_of` set_ids_ self ++ set_ids
  ∧ length (workers (running s)) = 1
  ∧ ∀ w, w ∈ workers (running s) → at_ w = Get →
      ∃ set_id rest, fifo_get (set_ids_ (shared (running s))) = Got set_id rest.
Proof.
  intros Hone Hrun.
  assert (solo (running s)
          ∧ dequeued (log (running s))
            = processed (log (running s)) ++ inflight (workers (running s)))
    as [Hsolo Hord].
  { eapply (fed_exec_pool_invariant hooks fifo_get
              (λ p, solo p ∧ dequeued (log p)
                             = processed (log p) ++ inflight (workers p)));
      [intros i p1 p2; apply step_solo_order
      |intros set_id p1; apply feed_solo| |exact Hrun].
    unfold solo, fed_spawn, spawn. rewrite Hone. simpl. split; [|done].
    eexists. split; [reflexivity|done]. }
  destruct (fed_exec_taken hooks _ _ _ _ _ _ Hrun) as [Hq _].
  destruct Hsolo as (w0 & Hws & Hget & _).
  split_and!.
  - exists (inflight (workers (running s)) ++ set_ids_ (shared (running s)) ++ buffered s).
    by rewrite <- Hq, Hord, <- !app_assoc.
  - by rewrite Hws.
  - intros w Hin Hat. rewrite Hws in Hin.
    apply list_elem_of_singleton in Hin as ->.
    destruct (set_ids_ (shared (running s))) as [|x rest]; [by destruct (Hget Hat)|].
    by exists x, rest.
Qed.

Lemma single_worker_keeps_order_witness :
  ∃ s, fed_exec Base.hooks fifo_get
         [Feed; Move 0; Move 0; Move 0; Feed; Move 0; Move 0; Move 0; Move 0]
         (fed_spawn (__init__ (Some 1%Z)) tt ["c"; "a"; "b"] None) = Some s
    ∧ processed (log (running s)) = ["c"; "a"]
    ∧ buffered s = ["b"]
    ∧ processed (log (running s)) `prefix_of` ["c"; "a"; "b"].
Proof.
  eexists.
  eassert (fed_exec Base.hooks fifo_get
             [Feed; Move 0; Move 0; Move 0; Feed; Move 0; Move 0; Move 0; Move 0]
             (fed_spawn (__init__ (Some 1%Z)) tt ["c"; "a"; "b"] None) = Some _)
    as Hrun by (vm_compute; reflexivity).
  split_and!; [exact Hrun|reflexivity|reflexivity|].
  apply (single_worker_keeps_order Base.hooks _ (__init__ (Some 1%Z)) tt
           ["c"; "a"; "b"] None _ eq_refl Hrun).
Defined.


(** * Where a run can stop *)

Lemma Exists_insert_new {H} (P : @worker H → Prop) (ws : list (@worker H)) i w' :
  i < length ws → P w' → Exists P (<[i := w']> ws).
Proof.
  intros Hi HP. apply Exists_exists. exists w'. split; [|done].
  by apply list_elem_of_insert.
Qed.

(** When the queue is empty some worker is not inside [get()]: a worker
    enters [get()] only after it has seen the queue non-empty, and the one
    that takes the last item is then in the loop body. *)
Lemma step_not_all_waiting {H R} (hooks : @Hooks H R) i (p p' : @pool H) :
  process_wrapper hooks fifo_get i p = Some p' →
  set_ids_ (shared p') = [] →
  Exists (λ w, at_ w ≠ Get) (workers p').
Proof.
  intros Hstep.
  step_inv Hstep; simpl; intros Hnone;
    try (apply Exists_insert_new; [by eapply lookup_lt_Some|done]).
  destruct (set_ids_ (shared p)); [|done].
  apply Exists_insert_new; [by eapply lookup_lt_Some|done].
Qed.

Lemma fed_not_all_waiting {H R} (hooks : @Hooks H R) (acts : list action)
    (self : IParallelSolver) (h : H) set_ids results_file (s : @fed H) :
  (0 < num_workers self)%Z →
  fed_exec hooks fifo_get acts (fed_spawn self h set_ids results_file) = Some s →
  set_ids_ (shared (running s)) = [] →
  Exists (λ w, at_ w ≠ Get) (workers (running s)).
Proof.
  intros Hpos.
  destruct acts as [|a acts _] using rev_ind.
  - intros [= <-] _. simpl.
    destruct (Z.to_nat (num_workers self)) as [|n] eqn:Hn; [lia|].
    simpl. by left.
  - rewrite fed_exec_app. intros Hrun.
    destruct (fed_exec hooks fifo_get acts _) as [s1|]; [|done].
    simpl in Hrun.
    destruct (act hooks fifo_get a s1) as [s2|] eqn:Hact; [|done].
    simplify_eq/=.
    apply act_cases in Hact as [(set_id & _ & _ & ->)|(i & _ & _ & Hmove)].
    + simpl. unfold queue_put. intros Hnil.
      by apply app_eq_nil in Hnil as [_ ?].
    + by eapply step_not_all_waiting.
Qed.

(** X7.  Inside [process_wrapper] a worker can be held up only in [get()].
    With at least one worker, in a state of a run in which no worker can
    take a step, every worker has either returned from [process_wrapper] or
    stands inside [get()] with nothing in the pipe, and at least one worker
    has returned.  (Whether the process of a worker that has returned comes
    to its end is another matter, on which nothing is said.) *)
Theorem worker_stops_only_in_get {H R} (hooks : @Hooks H R)
    (acts : list action) (self : IParallelSolver) (h : H)
    (set_ids : list SetID) (results_file : option string) (s : @fed H) :
  (0 < num_workers self)%Z →
  fed_exec hooks fifo_get acts (fed_spawn self h set_ids results_file) = Some s →
  stuck hooks (running s) →
  Forall (λ w, at_ w = Exited ∨ (at_ w = Get ∧ set_ids_ (shared (running s)) = []))
    (workers (running s))
  ∧ Exists (λ w, at_ w = Exited) (workers (running s)).
Proof.
  intros Hpos Hrun Hstuck.
  assert (alive (running s)) as Halive.
  { eapply (fed_exec_pool_invariant hooks fifo_get alive);
      [intros i p1 p2; apply step_alive|by intros set_id p1| |exact Hrun].
    apply spawn_alive. }
  assert (Forall (λ w, at_ w = Exited
                       ∨ (at_ w = Get ∧ set_ids_ (shared (running s)) = []))
            (workers (running s))) as Hall.
  { apply Forall_lookup. intros i w Hw.
    destruct (stuck_worker hooks _ i w Hstuck Hw) as [Hat|[[e Hat]|[Hat Hq]]]; auto.
    unfold alive in Halive. by destruct (Forall_lookup_1 _ _ _ _ Halive Hw e). }
  split; [done|].
  assert (workers (running s) ≠ []) as Hne.
  { assert (length (workers (running s)) = Z.to_nat (num_workers self)) as Hlen.
    { eapply (fed_exec_pool_invariant hooks fifo_get
                (λ p, length (workers p) = Z.to_nat (num_workers self)));
        [|by intros set_id p1| |exact Hrun].
      - intros i p1 p2 <- Hstep. by apply step_fixed in Hstep as (_ & _ & ?).
      - simpl. by rewrite length_replicate. }
    intros Hnil. rewrite Hnil in Hlen. simpl in Hlen. lia. }
  destruct (set_ids_ (shared (running s))) as [|x rest] eqn:Hq.
  - pose proof (fed_not_all_waiting hooks _ _ _ _ _ _ Hpos Hrun Hq) as Hex.
    apply Exists_exists in Hex as (w & Hin & Hat).
    apply Exists_exists. exists w. split; [done|].
    rewrite Forall_forall in Hall. by destruct (Hall w Hin) as [?|[? _]].
  - destruct (workers (running s)) as [|w ws]; [done|].
    apply Forall_cons in Hall as [[Hat|[_ ?]] _]; [by left|done].
Qed.

Lemma worker_stops_only_in_get_witness :
  ∃ s, fed_exec Base.hooks fifo_get
         [Feed; Move 0; Move 1; Move 0; Move 1; Move 0; Move 0; Move 0]
         (fed_spawn (__init__ (Some 2%Z)) tt ["a"] None) = Some s
    ∧ (at_ <$> workers (running s)) = [Exited; Get]
    ∧ Exists (λ w, at_ w = Exited) (workers (running s)).
Proof.
  eexists.
  eassert (fed_exec Base.hooks fifo_get
             [Feed; Move 0; Move 1; Move 0; Move 1; Move 0; Move 0; Move 0]
             (fed_spawn (__init__ (Some 2%Z)) tt ["a"] None) = Some _) as Hrun
    by (vm_compute; reflexivity).
  split_and!; [exact Hrun|reflexivity|].
  apply (worker_stops_only_in_get Base.hooks _ (__init__ (Some 2%Z)) tt ["a"] None _
           eq_refl Hrun).
  intros [|[|i]]; reflexivity.
Defined.

(** X8.  A solver whose [num_workers] is zero or negative starts no
    process: [process_ids] goes straight to [maybe_save_results], nothing
    is taken from the queue and no hook of a task is called, and the set
    IDs given stay queued behind those that were queued before. *)
Theorem no_workers_nothing_processed {H R} (hooks : @Hooks H R)
    (queue_get : list SetID → get_result) (sched : list nat)
    (self : IParallelSolver) (h : H) (set_ids : list SetID)
    (results_file : option string) (p : @pool H) :
  (num_workers self ≤ 0)%Z →
  exec hooks queue_get sched (spawn self h set_ids results_file) = Some p →
  sched = []
  ∧ log p = []
  ∧ all_joined p = true
  ∧ set_ids_ (shared p) = set_ids_ self ++ set_ids
  ∧ results_ (shared p) = results_ self.
Proof.
  intros Hn Hrun.
  assert (workers (spawn self h set_ids results_file) = []) as Hws.
  { simpl. by replace (Z.to_nat (num_workers self)) with 0 by lia. }
  destruct sched as [|i sched].
  - injection Hrun as <-. rewrite spawn_shared.
    unfold all_joined. rewrite Hws. done.
  - simpl in Hrun. unfold process_wrapper at 1 in Hrun. by rewrite Hws in Hrun.
Qed.

Lemma no_workers_nothing_processed_witness :
  exec Base.hooks fifo_get []
    (spawn (__init__ (Some 0%Z)) tt ["a"; "b"] (Some "out.csv"))
  = Some (spawn (__init__ (Some 0%Z)) tt ["a"; "b"] (Some "out.csv"))
  ∧ set_ids_ (shared (spawn (__init__ (Some 0%Z)) tt ["a"; "b"] (Some "out.csv")))
    = ["a"; "b"].
Proof.
  split; [reflexivity|].
  apply (no_workers_nothing_processed Base.hooks fifo_get []
           (__init__ (Some 0%Z)) tt ["a"; "b"] (Some "out.csv") _
           ltac:(done) eq_refl).
Defined.

(** * Runs that process nothing *)

Lemma all_joined_intro {H} (p : @pool H) :
  Forall (λ w, ended w = true) (workers p) → all_joined p = true.
Proof.
  unfold all_joined. induction 1 as [|w ws Hw _ IH]; simpl; [done|].
  by rewrite Hw, IH.
Qed.

(** A worker that is at the start, at the test of its loop, or has returned. *)
Lemma step_idle {H R} (hooks : @Hooks H R) queue_get i (p p' : @pool H) :
  (set_ids_ (shared p) = []
   ∧ Forall (λ w, at_ w = Start ∨ at_ w = LoopTest ∨ at_ w = Exited) (workers p)
   ∧ hook_order (log p) = [] ∧ dequeued (log p) = []) →
  process_wrapper hooks queue_get i p = Some p' →
  shared p' = shared p
  ∧ set_ids_ (shared p') = []
  ∧ Forall (λ w, at_ w = Start ∨ at_ w = LoopTest ∨ at_ w = Exited) (workers p')
  ∧ hook_order (log p') = [] ∧ dequeued (log p') = [].
Proof.
  intros (Hq & Hall & Hho & Hdq) Hstep.
  pose proof Hstep as (w' & Hw' & _)%worker_step_cases.
  pose proof (Forall_lookup_1 _ _ _ _ Hall Hw') as Hw0.
  step_inv Hstep; simplify_eq; simpl;
    try (destruct Hw0 as [?|[?|?]]; congruence);
    rewrite ?hook_order_app, ?dequeued_app, ?Hho, ?Hdq; simpl.
  - split_and!; try done. apply Forall_insert; auto.
  - rewrite Hq. simpl. rewrite ?app_nil_r.
    split_and!; try done. apply Forall_insert; auto.
Qed.

(** X9.  With no set ID to process ([set_ids] empty, nothing queued before)
    [process_ids] cannot hang: no worker ever reaches [get()], no hook of a
    task is called, the queues stay as they were, and when no worker can
    move every worker has returned. *)
Theorem empty_input_returns {H R} (hooks : @Hooks H R)
    (sched : list nat) (self : IParallelSolver) (h : H)
    (results_file : option string) (p : @pool H) :
  set_ids_ self = [] →
  exec hooks fifo_get sched (spawn self h [] results_file) = Some p →
  hook_order (log p) = []
  ∧ dequeued (log p) = []
  ∧ results_ (shared p) = results_ self
  ∧ Forall (λ w, waiting w = false) (workers p)
  ∧ (∃ sched' p', exec hooks fifo_get sched' p = Some p' ∧ stuck hooks p')
  ∧ (stuck hooks p → all_joined p = true).
Proof.
  intros Hempty Hrun.
  assert (shared p = shared (spawn self h [] results_file)
          ∧ set_ids_ (shared p) = []
          ∧ Forall (λ w, at_ w = Start ∨ at_ w = LoopTest ∨ at_ w = Exited) (workers p)
          ∧ hook_order (log p) = [] ∧ dequeued (log p) = [])
    as (Hshared & Hq & Hall & Hho & Hdq).
  { eapply (exec_invariant hooks fifo_get
              (λ p, shared p = shared (spawn self h [] results_file)
                    ∧ set_ids_ (shared p) = []
                    ∧ Forall (λ w, at_ w = Start ∨ at_ w = LoopTest ∨ at_ w = Exited)
                        (workers p)
                    ∧ hook_order (log p) = [] ∧ dequeued (log p) = []));
      [| |exact Hrun].
    - intros i p1 p2 (Hs1 & Hrest) Hstep.
      destruct (step_idle hooks fifo_get i p1 p2 Hrest Hstep) as (-> & ?).
      by split.
    - simpl. rewrite Hempty. split_and!; try done.
      apply Forall_replicate. by left. }
  split_and!; try done.
  - by rewrite Hshared.
  - eapply Forall_impl; [exact Hall|]. intros w. unfold waiting.
    by intros [->|[->| ->]].
  - apply (exec_to_stuck hooks).
  - intros Hstuck. apply all_joined_intro, Forall_lookup. intros i w Hw.
    pose proof (Forall_lookup_1 _ _ _ _ Hall Hw) as Hw0.
    destruct (stuck_worker hooks p i w Hstuck Hw) as [Hat|[[e Hat]|[Hat _]]];
      unfold ended; rewrite Hat; try done.
    destruct Hw0 as [?|[?|?]]; congruence.
Qed.

Lemma empty_input_returns_witness :
  ∃ p, exec Base.hooks fifo_get [0; 1; 2; 3; 0; 1; 2; 3]
         (spawn (__init__ None) tt [] (Some "out.csv")) = Some p
    ∧ all_joined p = true
    ∧ hook_order (log p) = [].
Proof.
  eexists.
  eassert (exec Base.hooks fifo_get [0; 1; 2; 3; 0; 1; 2; 3]
             (spawn (__init__ None) tt [] (Some "out.csv")) = Some _) as Hrun
    by (vm_compute; reflexivity).
  split; [exact Hrun|].
  destruct (empty_input_returns Base.hooks _ (__init__ None) tt (Some "out.csv") _
              eq_refl Hrun) as (Hho & _ & _ & _ & _ & Hend).
  split; [|exact Hho].
  apply Hend. intros [|[|[|[|i]]]]; reflexivity.
Defined.

Section Shrinking.
Context {H R : Type}.
Variable hooks : @Hooks H R.
Variable queue_get : list SetID → get_result.
Hypothesis Hshrink : shrinking queue_get.
Implicit Types (p : @pool H) (i : nat) (sched : list nat).

(** With any task queue that loses an item whenever it hands one out, every
    step brings the pool closer to its end. *)
Lemma step_measure_shrinking i p p' :
  process_wrapper hooks queue_get i p = Some p' → measure p' < measure p.
Proof.
  unfold measure. intros Hstep.
  step_inv Hstep; simpl;
    match goal with
    | Hw : workers p !! i = Some ?w |- context [<[i := ?w']> _] =>
        pose proof (weight_insert (workers p) i w w' Hw) as Hsum
    end;
    rewrite Hat in Hsum; simpl in Hsum.
  - lia.
  - destruct (queue_empty _); simpl in *; lia.
  - apply Hshrink in Hget. lia.
  - lia.
  - lia.
Qed.

Lemma exec_to_halted p :
  ∃ sched p', exec hooks queue_get sched p = Some p' ∧ halted hooks queue_get p'.
Proof.
  remember (measure p) as m eqn:Hm. revert p Hm.
  induction (lt_wf m) as [m _ IH]. intros p ->.
  destruct (decide (Exists (λ i, is_Some (process_wrapper hooks queue_get i p))
                      (seq 0 (length (workers p))))) as [Hex|Hno].
  - apply Exists_exists in Hex as (i & _ & [p1 Hp1]).
    pose proof (step_measure_shrinking _ _ _ Hp1) as Hlt.
    destruct (IH (measure p1) Hlt p1 eq_refl) as (sched & p' & Hrun & Hhalt).
    exists (i :: sched), p'. simpl. rewrite Hp1. done.
  - exists [], p. split; [done|]. intros i.
    destruct (process_wrapper hooks queue_get i p) as [p1|] eqn:Hp1; [|done].
    exfalso. apply Hno.
    apply Exists_exists. exists i. split; [|by eexists].
    apply elem_of_seq. split; [lia|]. simpl.
    apply worker_step_cases in Hp1 as (w & Hw & _).
    by eapply lookup_lt_Some.
Qed.

End Shrinking.

(** A worker that has not taken a set ID and was not killed. *)
Lemma step_failing_queue {H R} (hooks : @Hooks H R) queue_get i (p p' : @pool H) :
  (∀ q, ∃ e, queue_get q = GetRaises e) →
  (Forall (λ w, holding w = [] ∧ ∀ e, at_ w ≠ Died e) (workers p)
   ∧ hook_order (log p) = [] ∧ dequeued (log p) = []) →
  process_wrapper hooks queue_get i p = Some p' →
  shared p' = shared p
  ∧ Forall (λ w, holding w = [] ∧ ∀ e, at_ w ≠ Died e) (workers p')
  ∧ hook_order (log p') = [] ∧ dequeued (log p') = [].
Proof.
  intros Hfail (Hall & Hho & Hdq) Hstep.
  pose proof Hstep as (w' & Hw' & _)%worker_step_cases.
  pose proof (Forall_lookup_1 _ _ _ _ Hall Hw') as [Hw0 _].
  step_inv Hstep; simplify_eq; simpl;
    try (destruct (Hfail (set_ids_ (shared p))) as [e' He']; congruence);
    try (unfold holding in Hw0; by rewrite Hat in Hw0);
    rewrite ?hook_order_app, ?dequeued_app, ?Hho, ?Hdq; simpl;
    (split_and!; try done; apply Forall_insert; [done|]);
    unfold holding; simpl; try done.
  by destruct (queue_empty _).
Qed.

(** X10.  When every [get()] on the task queue raises, [process_ids] still
    comes to its end, and silently: each worker prints the error and returns,
    so that once no worker can move the joins return; no set ID has left the
    queue and no hook of a task has been called. *)
Theorem failing_queue_processes_nothing {H R} (hooks : @Hooks H R)
    (queue_get : list SetID → get_result) (sched : list nat)
    (self : IParallelSolver) (h : H) (set_ids : list SetID)
    (results_file : option string) (p : @pool H) :
  (∀ q, ∃ e, queue_get q = GetRaises e) →
  exec hooks queue_get sched (spawn self h set_ids results_file) = Some p →
  set_ids_ (shared p) = set_ids_ self ++ set_ids
  ∧ results_ (shared p) = results_ self
  ∧ dequeued (log p) = []
  ∧ hook_order (log p) = []
  ∧ (∃ sched' p', exec hooks queue_get sched' p = Some p'
                  ∧ halted hooks queue_get p')
  ∧ (halted hooks queue_get p → all_joined p = true).
Proof.
  intros Hfail Hrun.
  assert (shared p = shared (spawn self h set_ids results_file)
          ∧ Forall (λ w, holding w = [] ∧ ∀ e, at_ w ≠ Died e) (workers p)
          ∧ hook_order (log p) = [] ∧ dequeued (log p) = [])
    as (Hshared & Hall & Hho & Hdq).
  { eapply (exec_invariant hooks queue_get
              (λ p, shared p = shared (spawn self h set_ids results_file)
                    ∧ Forall (λ w, holding w = [] ∧ ∀ e, at_ w ≠ Died e) (workers p)
                    ∧ hook_order (log p) = [] ∧ dequeued (log p) = []));
      [| |exact Hrun].
    - intros i p1 p2 (Hs1 & Hrest) Hstep.
      destruct (step_failing_queue hooks queue_get i p1 p2 Hfail Hrest Hstep)
        as (-> & ?).
      by split.
    - simpl. split_and!; try done. by apply Forall_replicate. }
  rewrite Hshared, spawn_shared. simpl.
  split_and!; try done.
  - apply exec_to_halted. intros q x rest Hgot.
    destruct (Hfail q) as [e He]. congruence.
  - intros Hhalt. apply all_joined_intro, Forall_lookup. intros i w Hw.
    pose proof (Forall_lookup_1 _ _ _ _ Hall Hw) as [Hhold Hlive].
    specialize (Hhalt i). unfold process_wrapper in Hhalt.
    rewrite Hw in Hhalt. simpl in Hhalt. unfold ended, holding in *.
    destruct (at_ w) as [| | |x| |e]; try done.
    + by destruct (queue_empty _).
    + destruct (Hfail (set_ids_ (shared p))) as [e He]. by rewrite He in Hhalt.
Qed.

Lemma failing_queue_processes_nothing_witness :
  ∃ p, exec Base.hooks (broken_get "pipe closed") [0; 1; 0; 1; 0; 1]
         (spawn (__init__ (Some 2%Z)) tt ["a"; "b"] None) = Some p
    ∧ all_joined p = true
    ∧ set_ids_ (shared p) = ["a"; "b"]
    ∧ hook_order (log p) = [].
Proof.
  eexists.
  eassert (exec Base.hooks (broken_get "pipe closed") [0; 1; 0; 1; 0; 1]
             (spawn (__init__ (Some 2%Z)) tt ["a"; "b"] None) = Some _) as Hrun
    by (vm_compute; reflexivity).
  split; [exact Hrun|].
  destruct (failing_queue_processes_nothing Base.hooks (broken_get "pipe closed") _
              (__init__ (Some 2%Z)) tt ["a"; "b"] None _
              (λ q, ex_intro _ "pipe closed" eq_refl) Hrun)
    as (Hq & _ & _ & Hho & _ & Hend).
  split_and!; [|exact Hq|exact Hho].
  apply Hend. intros [|[|i]]; reflexivity.
Defined.

(** * The class on its own *)

(** One run of the loop body with the methods of [IParallelSolver]. *)
Lemma base_task save_all set_id results :
  let q := (process_task Base.hooks save_all set_id (fresh tt results)).1 in
  raisers (trace q) = []
  ∧ processed (trace q) = [set_id]
  ∧ pushed (trace q) = (if save_all then [base_row] else [])
  ∧ persisted (trace q) = [(set_id, base_row)].
Proof. destruct save_all; split_and!; reflexivity. Qed.

Lemma raisers_app l k : raisers (l ++ k) = raisers l ++ raisers k.
Proof. apply omap_app. Qed.

Lemma step_base queue_get i (p p' : @pool unit) :
  (raisers (log p) = []
   ∧ persisted (log p) = (λ set_id, (set_id, base_row)) <$> processed (log p)
   ∧ pushed (log p)
     = replicate (if save_all_results_ (shared p)
                  then length (processed (log p)) else 0) base_row) →
  process_wrapper Base.hooks queue_get i p = Some p' →
  raisers (log p') = []
  ∧ persisted (log p') = (λ set_id, (set_id, base_row)) <$> processed (log p')
  ∧ pushed (log p')
    = replicate (if save_all_results_ (shared p')
                 then length (processed (log p')) else 0) base_row.
Proof.
  intros (Hr & Hp & Hpush) Hstep.
  pose proof (step_fixed _ _ _ _ _ Hstep) as (Hflag & _ & _).
  rewrite Hflag. clear Hflag.
  step_inv Hstep; simpl;
    rewrite ?raisers_app, ?persisted_app, ?processed_app, ?pushed_app; simpl;
    rewrite ?app_nil_r; try done.
  clear Hspec.
  destruct w as [c []]. simpl in *.
  pose proof (base_task (save_all_results_ (shared p)) set_id (results_ (shared p)))
    as Hb.
  rewrite Hq in Hb. simpl in Hb. destruct Hb as (-> & -> & -> & ->).
  rewrite Hr, Hp, Hpush, fmap_app, length_app. simpl.
  split_and!; try done.
  destruct (save_all_results_ (shared p)); simpl; [|done].
  by rewrite Nat.add_1_r, replicate_S_end.
Qed.

(** X11.  With the methods of [IParallelSolver] itself no task fails.  At
    every moment of a run at which no worker is in the middle of a loop body
    (a loop body is one step of a run), whatever the task queue does: no hook
    has raised; the local save has been called once for every run of the
    loop body, with the fixed row; and the result queue holds what it held
    before the call and then one copy of the fixed row per run of the loop
    body if a results file was given, and nothing more otherwise. *)
Theorem base_class_rows (queue_get : list SetID → get_result)
    (acts : list action) (self : IParallelSolver)
    (set_ids : list SetID) (results_file : option string) (s : @fed unit) :
  fed_exec Base.hooks queue_get acts (fed_spawn self tt set_ids results_file) = Some s →
  raisers (log (running s)) = []
  ∧ persisted (log (running s))
    ≡ₚ (λ set_id, (set_id, base_row)) <$> processed (log (running s))
  ∧ results_ (shared (running s))
    = results_ self
      ++ replicate (if bool_decide (results_file ≠ None)
                    then length (processed (log (running s))) else 0) base_row.
Proof.
  intros Hrun.
  assert ((raisers (log (running s)) = []
           ∧ persisted (log (running s))
             = (λ set_id, (set_id, base_row)) <$> processed (log (running s))
           ∧ pushed (log (running s))
             = replicate (if save_all_results_ (shared (running s))
                          then length (processed (log (running s))) else 0) base_row)
          ∧ results_inv (results_ self) (running s)
          ∧ save_all_results_ (shared (running s)) = bool_decide (results_file ≠ None))
    as ((Hr & Hp & Hpush) & [Hres _] & Hflag).
  { eapply (fed_exec_pool_invariant Base.hooks queue_get
              (λ p, (raisers (log p) = []
                     ∧ persisted (log p)
                       = (λ set_id, (set_id, base_row)) <$> processed (log p)
                     ∧ pushed (log p)
                       = replicate (if save_all_results_ (shared p)
                                    then length (processed (log p)) else 0) base_row)
                    ∧ results_inv (results_ self) p
                    ∧ save_all_results_ (shared p) = bool_decide (results_file ≠ None)));
      [| | |exact Hrun].
    - intros i p1 p2 (Hb & Hres & Hflag) Hstep. split; [|split].
      + by eapply step_base.
      + by eapply step_results.
      + apply step_fixed in Hstep as (-> & _). done.
    - intros set_id p1 Hp1. exact Hp1.
    - simpl. unfold results_inv. simpl. rewrite app_nil_r.
      split_and!; try done; by case_bool_decide. }
  split; [done|]. split; [by rewrite Hp|].
  by rewrite Hres, Hpush, Hflag.
Qed.

Lemma base_class_rows_witness :
  ∃ s, fed_exec Base.hooks fifo_get
         [Feed; Move 0; Move 1; Move 0; Feed; Move 1; Move 0; Move 1; Move 0; Move 1;
          Move 0; Move 1]
         (fed_spawn (__init__ (Some 2%Z)) tt ["a"; "b"; "c"] (Some "out.csv")) = Some s
    ∧ all_joined (running s) = true
    ∧ buffered s = ["c"]
    ∧ results_ (shared (running s)) = [base_row; base_row].
Proof.
  eexists.
  eassert (fed_exec Base.hooks fifo_get
             [Feed; Move 0; Move 1; Move 0; Feed; Move 1; Move 0; Move 1; Move 0; Move 1; Move 0; Move 1]
             (fed_spawn (__init__ (Some 2%Z)) tt ["a"; "b"; "c"] (Some "out.csv"))
           = Some _) as Hrun by (vm_compute; reflexivity).
  split_and!; [exact Hrun|reflexivity|reflexivity|].
  by destruct (base_class_rows fifo_get _ (__init__ (Some 2%Z)) ["a"; "b"; "c"]
                 (Some "out.csv") _ Hrun) as (_ & _ & Hres).
Defined.

(** X12.  The [maybe_save_results] of [IParallelSolver] neither writes a
    file nor empties the result queue: after a call of [process_ids] that
    returns, the files are as before and the result queue holds what it held
    before the call followed by the rows pushed during it, so that the rows
    of successive calls pile up. *)
Theorem base_save_never_drains {H R} (hooks : @Hooks H R)
    (queue_get : list SetID → get_result) (sched : list nat)
    (self : IParallelSolver) (h : H) (fs : gmap string (list string))
    (set_ids : list SetID) (results_file : option string) (w : @world H) :
  maybe_save_results hooks = Base.maybe_save_results →
  process_ids hooks queue_get sched self h fs set_ids results_file = Some w →
  files w = fs
  ∧ results_ (solver w) = results_ self ++ pushed (seen w)
  ∧ parent w = h
  ∧ ending w = Returns tt.
Proof.
  intros Hbase Hcall. unfold process_ids in Hcall.
  destruct (exec _ queue_get sched _) as [p|] eqn:Hrun; [|done].
  simpl in Hcall. destruct (all_joined p); [|done].
  assert (results_inv (results_ self) p) as [Hres _].
  { eapply exec_results; [|exact Hrun].
    unfold results_inv. rewrite spawn_shared. simpl. rewrite app_nil_r.
    split; [done|]. by case_bool_decide. }
  injection Hcall as <-. rewrite Hbase. simpl.
  split_and!; try done.
  rewrite pushed_app, Hres. simpl. by rewrite app_nil_r.
Qed.

Lemma base_save_never_drains_witness :
  ∃ w1 w2,
    process_ids Base.hooks fifo_get [0; 0; 0; 0; 0]
      (__init__ (Some 1%Z)) tt ∅ ["a"] (Some "one.csv") = Some w1
    ∧ process_ids Base.hooks fifo_get [0; 0; 0; 0; 0]
        (solver w1) (parent w1) (files w1) ["b"] (Some "two.csv") = Some w2
    ∧ files w2 = ∅
    ∧ results_ (solver w2) = [base_row; base_row].
Proof.
  eassert (process_ids Base.hooks fifo_get [0; 0; 0; 0; 0]
             (__init__ (Some 1%Z)) tt ∅ ["a"] (Some "one.csv") = Some _) as Hone
    by (vm_compute; reflexivity).
  match type of Hone with _ = Some ?w1 =>
    eassert (process_ids Base.hooks fifo_get [0; 0; 0; 0; 0]
               (solver w1) (parent w1) (files w1) ["b"] (Some "two.csv") = Some _)
      as Htwo by (vm_compute; reflexivity)
  end.
  eexists _, _.
  split; [exact Hone|]. split; [exact Htwo|].
  destruct (base_save_never_drains Base.hooks fifo_get _ _ _ _ _ _ _ eq_refl Htwo)
    as (Hfiles & Hres & _).
  split; [exact Hfiles|exact Hres].
Defined.

(** X13.  The flag of unified mode and the message of [maybe_save_results]
    test [results_file] differently: the flag is set whenever it is not
    [None], the message says that results are saved only when it is a
    non-empty string.  After a call that returns, the last two lines printed
    are that message and the closing message of [process_ids], and flag and
    message agree except for the empty string, for which rows are pushed to
    the result queue while the message says that no results file was
    specified. *)
Theorem flag_and_save_message {H R} (hooks : @Hooks H R)
    (queue_get : list SetID → get_result) (sched : list nat)
    (self : IParallelSolver) (h : H) (fs : gmap string (list string))
    (set_ids : list SetID) (results_file : option string) (w : @world H) :
  maybe_save_results hooks = Base.maybe_save_results →
  process_ids hooks queue_get sched self h fs set_ids results_file = Some w →
  save_all_results_ (solver w) = bool_decide (results_file ≠ None)
  ∧ (∃ before,
       seen w
       = before
         ++ [Print (if Base.truthy results_file
                    then "Saving all results to " +:+ default "" results_file +:+ "."
                    else "No results file specified, skipping save.");
             Print "All results have been processed and saved."])
  ∧ (save_all_results_ (solver w) = Base.truthy results_file
     ↔ results_file ≠ Some "").
Proof.
  intros Hbase Hcall. unfold process_ids in Hcall.
  destruct (exec _ queue_get sched _) as [p|] eqn:Hrun; [|done].
  simpl in Hcall. destruct (all_joined p); [|done].
  pose proof (exec_fixed hooks queue_get _ _ _ Hrun) as (Hflag & _ & _).
  rewrite spawn_shared in Hflag. simpl in Hflag.
  injection Hcall as <-. rewrite Hbase. simpl. rewrite Hflag.
  split_and!; [done|by exists (log p)|].
  destruct results_file as [[|c f]|]; simpl;
    rewrite ?bool_decide_eq_true_2, ?bool_decide_eq_false_2 by naive_solver;
    naive_solver.
Qed.

Lemma flag_and_save_message_witness :
  ∃ w, process_ids Base.hooks fifo_get [0; 0; 0; 0; 0]
         (__init__ (Some 1%Z)) tt ∅ ["a"] (Some "") = Some w
    ∧ save_all_results_ (solver w) = true
    ∧ results_ (solver w) = [base_row]
    ∧ ∃ before,
        seen w = before ++ [Print "No results file specified, skipping save.";
                            Print "All results have been processed and saved."].
Proof.
  eexists.
  eassert (process_ids Base.hooks fifo_get [0; 0; 0; 0; 0]
             (__init__ (Some 1%Z)) tt ∅ ["a"] (Some "") = Some _) as Hcall
    by (vm_compute; reflexivity).
  split; [exact Hcall|]. split; [reflexivity|]. split; [reflexivity|].
  by destruct (flag_and_save_message Base.hooks fifo_get _ _ _ _ _ _ _ eq_refl Hcall)
    as (_ & Hlast & _).
Defined.
